(** * Numba basics notebook: go_fast, go_numpy, spherical_to_cartesian,
      random_directions

    A shallow embedding of the example functions of
    [2.1a_Python_for_HPC/0_numba/0_basics.ipynb] and the properties the
    specification states about them.

    Modelling conventions.
    - float64 (and int64) values are idealised as real numbers ([R] of the
      Standard Library): [np.tanh], [np.sin], [np.cos], [np.arccos] are
      [tanh], [sin], [cos], [acos]; rounding, overflow and NaN are not
      represented.
    - The functions are given the meaning Python gives their source text:
      an index out of bounds is the error IndexError, which is what the
      interpreter reports.  The compiled [go_fast] does not check bounds,
      and what it reads past a row is not modelled; it takes such a read
      only on a matrix with more rows than columns, so what is stated
      about the values [go_fast] returns is stated for matrices with no
      more rows than columns.
    - Whether the compiled function, the interpreted one and NumPy's
      array expressions agree bit for bit in float64 is a question about
      rounding and code generation, and is not asked here.
    - A two-dimensional [ndarray] is its dtype tag, its number of columns
      and its list of rows.  Arrays live in a heap and are passed by
      reference, as Python objects are.
    - Python code runs in a state-and-exception monad over a [world]:
      the heap, the state of the [random] module's generator, the contents
      of not yet initialised memory (what [np.empty] hands out), and a call
      and iteration log used to state which function calls which and how
      often a loop runs.
*)

From Stdlib Require Import Reals Lra Lia ZArith List.
From stdpp Require Import base list.

Open Scope R_scope.

(** ** NumPy arrays *)

Inductive dtype := int64 | float64.

Record ndarray := mk_ndarray {
  arr_dtype : dtype;
  arr_ncols : nat;
  arr_rows : list (list R)
}.

(** [a.shape] *)
Definition shape (a : ndarray) : nat * nat := (length (arr_rows a), arr_ncols a).

(** Every row has [arr_ncols] entries: the arrays NumPy can build. *)
Definition wf_array (a : ndarray) : Prop :=
  Forall (fun row => length row = arr_ncols a) (arr_rows a).

Definition square (a : ndarray) : Prop :=
  wf_array a /\ length (arr_rows a) = arr_ncols a.

(** [a[i, j]] as a partial function: [None] is an index out of bounds. *)
Definition entry (a : ndarray) (i j : nat) : option R :=
  match arr_rows a !! i with
  | Some row => row !! j
  | None => None
  end.

(** [np.diagonal(a)]: the entries [a[i, i]] for [i < min(a.shape)].  The
    one-dimensional temporaries of [go_numpy] are values, not heap objects:
    no reference to them survives the expression that builds them. *)
Definition np_diagonal (a : ndarray) : list R :=
  omap (fun i => entry a i i)
       (seq 0 (Nat.min (length (arr_rows a)) (arr_ncols a))).

(** [v.sum()] of a one-dimensional array: the sum of its elements. *)
Definition np_sum (v : list R) : R := fold_right Rplus 0 v.

(** [a + s] for a scalar float [s], broadcast to every entry; the result
    is a new float64 array. *)
Definition add_scalar (a : ndarray) (s : R) : ndarray :=
  {| arr_dtype := float64;
     arr_ncols := arr_ncols a;
     arr_rows := map (map (fun x => x + s)) (arr_rows a) |}.

(** ** The world a notebook cell runs in *)

(** The functions of the notebook whose calls are recorded. *)
Inductive fname :=
  | f_go_fast
  | f_go_numpy
  | f_spherical_to_cartesian
  | f_random_directions.

#[global] Instance fname_eq_dec : EqDecision fname.
Proof. solve_decision. Defined.

Definition loc := nat.

Record world := mk_world {
  heap : list ndarray;      (* the array objects, addressed by position *)
  rng_stream : nat -> R;    (* what random.random() yields, draw by draw *)
  rng_pos : nat;            (* how many draws have been consumed *)
  fresh_mem : nat -> R;     (* contents of memory np.empty does not clear *)
  calls : list fname;       (* ghost: functions entered, oldest first *)
  iters : nat               (* ghost: loop iterations started *)
}.

(** [random.random()] returns a float in [0.0, 1.0). *)
Definition rng_ok (w : world) : Prop := forall k, 0 <= rng_stream w k < 1.

Definition set_heap (h : list ndarray) (w : world) : world :=
  {| heap := h; rng_stream := rng_stream w; rng_pos := rng_pos w;
     fresh_mem := fresh_mem w; calls := calls w; iters := iters w |}.
Definition set_rng_pos (p : nat) (w : world) : world :=
  {| heap := heap w; rng_stream := rng_stream w; rng_pos := p;
     fresh_mem := fresh_mem w; calls := calls w; iters := iters w |}.
Definition set_calls (c : list fname) (w : world) : world :=
  {| heap := heap w; rng_stream := rng_stream w; rng_pos := rng_pos w;
     fresh_mem := fresh_mem w; calls := c; iters := iters w |}.
Definition set_iters (k : nat) (w : world) : world :=
  {| heap := heap w; rng_stream := rng_stream w; rng_pos := rng_pos w;
     fresh_mem := fresh_mem w; calls := calls w; iters := k |}.

Definition set_fresh_mem (fm : nat -> R) (w : world) : world :=
  {| heap := heap w; rng_stream := rng_stream w; rng_pos := rng_pos w;
     fresh_mem := fm; calls := calls w; iters := iters w |}.

(** ** State and exception monad *)

Inductive exn :=
  | IndexError        (* index out of bounds *)
  | ValueError        (* negative dimension, shape mismatch *)
  | DomainError       (* arccos outside [-1, 1] *)
  | BadReference.     (* a reference to no object: no Python value is one *)

Inductive result (A : Type) :=
  | Ok (v : A)
  | Raise (e : exn).
Arguments Ok {A} v.
Arguments Raise {A} e.

Definition M (A : Type) : Type := world -> result A * world.

Definition ret {A} (v : A) : M A := fun w => (Ok v, w).
Definition raise {A} (e : exn) : M A := fun w => (Raise e, w).
Definition bind {A B} (m : M A) (k : A -> M B) : M B :=
  fun w => match m w with
           | (Ok v, w') => k v w'
           | (Raise e, w') => (Raise e, w')
           end.

Notation "x <- m ;; k" := (bind m (fun x => k))
  (at level 62, m at next level, right associativity).
Notation "m ;;; k" := (bind m (fun _ => k))
  (at level 62, right associativity).

(** Heap access. *)
Definition load (l : loc) : M ndarray :=
  fun w => match heap w !! l with
           | Some a => (Ok a, w)
           | None => (Raise BadReference, w)
           end.
Definition alloc (a : ndarray) : M loc :=
  fun w => (Ok (length (heap w)), set_heap (heap w ++ [a]) w).
Definition store (l : loc) (a : ndarray) : M unit :=
  fun w => (Ok tt, set_heap (<[l := a]> (heap w)) w).

(** Ghost bookkeeping. *)
Definition enter (f : fname) : M unit :=
  fun w => (Ok tt, set_calls (calls w ++ [f]) w).
Definition tick : M unit :=
  fun w => (Ok tt, set_iters (S (iters w)) w).

(** [for i in range(n): s = body(i, s)] *)
Fixpoint for_each {St} (l : list nat) (body : nat -> St -> M St) (s : St) : M St :=
  match l with
  | [] => ret s
  | i :: l' => tick ;;; s' <- body i s ;; for_each l' body s'
  end.
Definition for_range {St} (n : nat) (body : nat -> St -> M St) (s : St) : M St :=
  for_each (seq 0 n) body s.

(** ** The NumPy and [random] operations the notebook uses *)

(** [a.shape[0]] *)
Definition np_shape0 (a : loc) : M nat :=
  arr <- load a ;; ret (length (arr_rows arr)).

(** [a[i, j]] *)
Definition np_getitem (a : loc) (i j : nat) : M R :=
  arr <- load a ;;
  match entry arr i j with
  | Some x => ret x
  | None => raise IndexError
  end.

(** [a + s], a new array *)
Definition np_add_scalar (a : loc) (s : R) : M loc :=
  arr <- load a ;; alloc (add_scalar arr s).

(** [np.empty(shape=(n, c), dtype=dt)]: a new array whose entries are
    whatever the memory held. *)
Definition np_empty (n : Z) (c : nat) (dt : dtype) : M loc :=
  if (n <? 0)%Z then raise ValueError
  else fun w =>
    alloc {| arr_dtype := dt;
             arr_ncols := c;
             arr_rows := map (fun i => map (fun j => fresh_mem w (i * c + j)%nat)
                                           (seq 0 c))
                             (seq 0 (Z.to_nat n)) |} w.

(** [out[i] = row], the row given as a tuple *)
Definition np_setitem_row (out : loc) (i : nat) (row : list R) : M unit :=
  arr <- load out ;;
  if decide (i < length (arr_rows arr))%nat then
    if decide (length row = arr_ncols arr) then
      store out {| arr_dtype := arr_dtype arr;
                   arr_ncols := arr_ncols arr;
                   arr_rows := <[i := row]> (arr_rows arr) |}
    else raise ValueError
  else raise IndexError.

(** [random.random()] *)
Definition random_random : M R :=
  fun w => (Ok (rng_stream w (rng_pos w)), set_rng_pos (S (rng_pos w)) w).

(** [random.uniform(a, b)] is [a + (b - a) * random()]. *)
Definition random_uniform (a b : R) : M R :=
  u <- random_random ;; ret (a + (b - a) * u).

(** [np.arccos(x)]; outside [-1, 1] the result is an error. *)
Definition np_arccos (x : R) : M R :=
  if Rle_dec (-1) x then
    if Rle_dec x 1 then ret (acos x) else raise DomainError
  else raise DomainError.

(** ** The functions of the notebook *)

(** The loop reads [a[i, i]] with the bounds check of the interpreter.
    The compiled function makes the same reads without the check; the two
    part ways only on a matrix with more rows than columns. *)
Definition go_fast (a : loc) : M loc :=
  enter f_go_fast ;;;
  n <- np_shape0 a ;;
  trace <- for_range n (fun i trace =>
             x <- np_getitem a i i ;;
             ret (trace + tanh x)) 0 ;;
  np_add_scalar a trace.

Definition go_numpy (a : loc) : M loc :=
  enter f_go_numpy ;;;
  arr <- load a ;;
  np_add_scalar a (np_sum (map tanh (np_diagonal arr))).

Definition spherical_to_cartesian (r theta phi : R) : M (R * R * R) :=
  enter f_spherical_to_cartesian ;;;
  let sin_theta := sin theta in
  let x := r * sin_theta * cos phi in
  let y := r * sin_theta * sin phi in
  let z := r * cos theta in
  ret (x, y, z).

Definition random_directions (n : Z) (r : R) : M loc :=
  enter f_random_directions ;;;
  out <- np_empty n 3 float64 ;;
  for_range (Z.to_nat n) (fun i _ =>
    phi <- random_uniform 0 (2 * PI) ;;
    u <- random_uniform (-1) 1 ;;
    theta <- np_arccos u ;;
    xyz <- spherical_to_cartesian r theta phi ;;
    let '(x, y, z) := xyz in
    np_setitem_row out i [x; y; z]) tt ;;;
  ret out.

(** ** Specification-side definitions *)

(** [a[i, i]] as a number (0 where the index is out of bounds). *)
Definition at_diag (a : ndarray) (i : nat) : R := default 0 (entry a i i).

(** The sum over [i] of [tanh(a[i, i])], accumulated in index order from 0.0. *)
Definition tanh_trace (a : ndarray) : R :=
  fold_left (fun t i => t + tanh (at_diag a i)) (seq 0 (length (arr_rows a))) 0.

(** What a call produced: the array behind the returned reference, or the
    exception. *)
Definition outcome (run : result loc * world) : result ndarray :=
  match run with
  | (Ok l, w') => match heap w' !! l with
                  | Some a => Ok a
                  | None => Raise BadReference
                  end
  | (Raise e, _) => Raise e
  end.

(** The arrays that existed before a call are the same after it. *)
Definition heap_preserved (w w' : world) : Prop :=
  forall l a, heap w !! l = Some a -> heap w' !! l = Some a.

(** Nothing that outlives a call has changed: neither the arrays that
    existed before nor the generator. *)
Definition persistent_state_unchanged (w w' : world) : Prop :=
  heap_preserved w w' /\
  rng_stream w' = rng_stream w /\ rng_pos w' = rng_pos w /\
  fresh_mem w' = fresh_mem w.

(** The functions entered during a run started in [w]. *)
Definition calls_during {A} (m : M A) (w : world) : list fname :=
  drop (length (calls w)) (calls (snd (m w))).

(** The loop iterations started during a run started in [w]. *)
Definition iters_during {A} (m : M A) (w : world) : nat :=
  (iters (snd (m w)) - iters w)%nat.

(** The loop of [go_fast] on the array itself: its result, and how many
    iterations it started. *)
Fixpoint diag_loop (arr : ndarray) (l : list nat) (t : R) : result R * nat :=
  match l with
  | [] => (Ok t, 0%nat)
  | i :: l' =>
      match entry arr i i with
      | Some x => let '(r, k) := diag_loop arr l' (t + tanh x) in (r, S k)
      | None => (Raise IndexError, 1%nat)
      end
  end.

(** The angles of iteration [i] of a run that starts at draw [p] of the
    stream [g], and the row the iteration writes. *)
Definition phi_at (g : nat -> R) (p i : nat) : R :=
  0 + (2 * PI - 0) * g (p + 2 * i)%nat.
Definition arccos_arg_at (g : nat -> R) (p i : nat) : R :=
  -1 + (1 - -1) * g (p + 2 * i + 1)%nat.
Definition theta_at (g : nat -> R) (p i : nat) : R :=
  acos (arccos_arg_at g p i).
Definition direction (r : R) (g : nat -> R) (p i : nat) : list R :=
  [ r * sin (theta_at g p i) * cos (phi_at g p i);
    r * sin (theta_at g p i) * sin (phi_at g p i);
    r * cos (theta_at g p i) ].

(** The rows after the iterations [k, k+1, ..., k+m-1]. *)
Definition rows_after (r : R) (g : nat -> R) (p0 k m : nat) (rows : list (list R))
  : list (list R) :=
  fold_left (fun rs i => <[i := direction r g p0 i]> rs) (seq k m) rows.

(** Computations that start at most [n] loop iterations. *)
Definition iters_at_most {A} (n : nat) (m : M A) : Prop :=
  forall w, (iters w <= iters (snd (m w)) <= iters w + n)%nat.

(** A call of [f] enters no function but [f] itself. *)
Definition invokes_no_other {A} (f : fname) (m : M A) (w : world) : Prop :=
  calls_during m w = [f].

(** ** Sample worlds *)

(** [np.array([[1], [2]])]: two rows, one column. *)
Definition tall : ndarray := mk_ndarray int64 1 [[1]; [2]].
Definition tall_world : world :=
  mk_world [tall] (fun _ => 0) 0%nat (fun _ => 0) [] 0%nat.

(** [np.arange(4).reshape(2, 2)] *)
Definition small_square : ndarray := mk_ndarray int64 2 [[0; 1]; [2; 3]].
Definition square_world : world :=
  mk_world [small_square] (fun _ => 0) 0%nat (fun _ => 0) [] 0%nat.

(** [np.array([[0., 1.], [2., 0.]])]: a float64 matrix with a zero
    diagonal. *)
Definition hollow : ndarray := mk_ndarray float64 2 [[0; 1]; [2; 0]].
Definition hollow_world : world :=
  mk_world [hollow] (fun _ => 0) 0%nat (fun _ => 0) [] 0%nat.

(** A session whose generator yields 0, 0, 1/2, 1/2, 1/2, ... *)
Definition session_stream (k : nat) : R := if (k <? 2)%nat then 0 else 1 / 2.
Definition session_world : world :=
  mk_world [] session_stream 0%nat (fun _ => 0) [] 0%nat.

(** Later in such a session: more arrays exist and five draws are used. *)
Definition later_world : world :=
  mk_world [tall; small_square] (fun k => session_stream (k - 5)) 5%nat
           (fun _ => 1) [f_go_fast] 7%nat.

(** ** The monad: running a bind *)

Lemma bind_ok {A B} (m : M A) (k : A -> M B) w v w' :
  m w = (Ok v, w') -> bind m k w = k v w'.
Proof. intros H. unfold bind. now rewrite H. Qed.

Lemma bind_raise {A B} (m : M A) (k : A -> M B) w e w' :
  m w = (Raise e, w') -> bind m k w = (Raise e, w').
Proof. intros H. unfold bind. now rewrite H. Qed.

(** [run H] runs the first computation of a bind whose result [H] gives;
    [run_raise H] does so when it raises. *)
Tactic Notation "run" uconstr(H) := rewrite (bind_ok _ _ _ _ _ H).
Tactic Notation "run_raise" uconstr(H) := rewrite (bind_raise _ _ _ _ _ H).

Lemma load_ok l w a : heap w !! l = Some a -> load l w = (Ok a, w).
Proof. intros H. unfold load. now rewrite H. Qed.

Lemma world_eta w :
  mk_world (heap w) (rng_stream w) (rng_pos w) (fresh_mem w) (calls w) (iters w) = w.
Proof. now destruct w. Qed.

(** ** [go_fast]: the loop and the whole function *)

Lemma np_getitem_run a arr i j w :
  heap w !! a = Some arr ->
  np_getitem a i j w
  = (match entry arr i j with Some x => Ok x | None => Raise IndexError end, w).
Proof.
  intros Ha. unfold np_getitem. run (load_ok _ _ _ Ha).
  now destruct (entry arr i j).
Qed.

Lemma set_iters_twice j k w : set_iters k (set_iters j w) = set_iters k w.
Proof. reflexivity. Qed.

Lemma for_each_diag a arr l : forall t w,
  heap w !! a = Some arr ->
  for_each l (fun i trace => x <- np_getitem a i i ;; ret (trace + tanh x)) t w
  = (fst (diag_loop arr l t), set_iters (iters w + snd (diag_loop arr l t)) w).
Proof.
  induction l as [|i l IH]; intros t w Ha; cbn [for_each diag_loop].
  - unfold ret, set_iters. cbn [fst snd]. rewrite Nat.add_0_r. now rewrite world_eta.
  - rewrite (bind_ok tick _ w tt (set_iters (S (iters w)) w)) by reflexivity.
    assert (Ha' : heap (set_iters (S (iters w)) w) !! a = Some arr) by exact Ha.
    pose proof (np_getitem_run a arr i i _ Ha') as Hg.
    destruct (entry arr i i) as [x|] eqn:He.
    + erewrite (bind_ok (bind (np_getitem a i i) _)); cycle 1.
      { run Hg. reflexivity. }
      rewrite IH by exact Ha'.
      destruct (diag_loop arr l (t + tanh x)) as [r k]. cbn [fst snd].
      rewrite set_iters_twice. do 2 f_equal. cbn. lia.
    + erewrite (bind_raise (bind (np_getitem a i i) _)); cycle 1.
      { run_raise Hg. reflexivity. }
      cbn [fst snd]. do 2 f_equal. lia.
Qed.

Lemma diag_loop_bound arr l : forall t, (snd (diag_loop arr l t) <= length l)%nat.
Proof.
  induction l as [|i l IH]; intros t; simpl; [lia|].
  destruct (entry arr i i) as [x|]; simpl; [|lia].
  specialize (IH (t + tanh x)). destruct (diag_loop arr l (t + tanh x)); simpl in *. lia.
Qed.

Lemma diag_loop_in_bounds arr l : forall t,
  Forall (fun i => is_Some (entry arr i i)) l ->
  diag_loop arr l t
  = (Ok (fold_left (fun t i => t + tanh (at_diag arr i)) l t), length l).
Proof.
  induction l as [|i l IH]; intros t Hl; simpl; [reflexivity|].
  inversion Hl as [|? ? [x Hx] Hl']; subst.
  unfold at_diag at 2. rewrite Hx. simpl. now rewrite IH.
Qed.

(** Everything a call of [go_fast] does, on any array. *)
Lemma go_fast_run a arr w :
  heap w !! a = Some arr ->
  go_fast a w =
    let run := diag_loop arr (seq 0 (length (arr_rows arr))) 0 in
    let w1 := set_iters (iters w + snd run) (set_calls (calls w ++ [f_go_fast]) w) in
    match fst run with
    | Ok t => (Ok (length (heap w)), set_heap (heap w ++ [add_scalar arr t]) w1)
    | Raise e => (Raise e, w1)
    end.
Proof.
  intros Ha. unfold go_fast.
  rewrite (bind_ok (enter f_go_fast) _ w tt (set_calls (calls w ++ [f_go_fast]) w))
    by reflexivity.
  set (w0 := set_calls (calls w ++ [f_go_fast]) w).
  assert (Ha0 : heap w0 !! a = Some arr) by exact Ha.
  erewrite (bind_ok (np_shape0 a)); cycle 1.
  { unfold np_shape0. run (load_ok _ _ _ Ha0). reflexivity. }
  unfold for_range.
  pose proof (for_each_diag a arr (seq 0 (length (arr_rows arr))) 0 w0 Ha0) as Hloop.
  cbv zeta.
  destruct (diag_loop arr (seq 0 (length (arr_rows arr))) 0) as [[t|e] k];
    cbn [fst snd] in *.
  - run Hloop. unfold np_add_scalar.
    erewrite bind_ok; [|apply load_ok; exact Ha0]. reflexivity.
  - run_raise Hloop. reflexivity.
Qed.

(** With no more rows than columns every [a[i, i]] of the loop exists. *)
Lemma diag_in_bounds arr :
  wf_array arr -> (length (arr_rows arr) <= arr_ncols arr)%nat ->
  Forall (fun i => is_Some (entry arr i i)) (seq 0 (length (arr_rows arr))).
Proof.
  intros Hwf Hle. apply Forall_forall. intros i Hi.
  apply elem_of_seq in Hi. destruct Hi as [_ Hi]. simpl in Hi.
  unfold entry.
  destruct (lookup_lt_is_Some_2 (arr_rows arr) i Hi) as [row Hrow].
  rewrite Hrow. apply lookup_lt_is_Some_2.
  unfold wf_array in Hwf. rewrite Forall_forall in Hwf.
  rewrite (Hwf row); [lia|].
  apply list_elem_of_lookup. eauto.
Qed.

Lemma omap_all_some {A B} (f : A -> option B) (d : B) (l : list A) :
  Forall (fun x => is_Some (f x)) l ->
  omap f l = map (fun x => default d (f x)) l.
Proof.
  induction 1 as [|x l [y Hy] _ IH]; [reflexivity|].
  cbn. rewrite Hy. cbn. f_equal. exact IH.
Qed.

(** A successful call of [go_fast]. *)
Lemma go_fast_ok a arr w :
  heap w !! a = Some arr ->
  wf_array arr -> (length (arr_rows arr) <= arr_ncols arr)%nat ->
  go_fast a w =
    (Ok (length (heap w)),
     set_heap (heap w ++ [add_scalar arr (tanh_trace arr)])
       (set_iters (iters w + length (arr_rows arr))
          (set_calls (calls w ++ [f_go_fast]) w))).
Proof.
  intros Ha Hwf Hle. rewrite (go_fast_run a arr w Ha). cbv zeta.
  rewrite (diag_loop_in_bounds arr _ 0 (diag_in_bounds arr Hwf Hle)).
  cbn [fst snd]. rewrite length_seq. reflexivity.
Qed.

Lemma go_numpy_run a arr w :
  heap w !! a = Some arr ->
  go_numpy a w =
    (Ok (length (heap w)),
     set_heap (heap w ++ [add_scalar arr (np_sum (map tanh (np_diagonal arr)))])
       (set_calls (calls w ++ [f_go_numpy]) w)).
Proof.
  intros Ha. unfold go_numpy.
  rewrite (bind_ok (enter f_go_numpy) _ w tt (set_calls (calls w ++ [f_go_numpy]) w))
    by reflexivity.
  set (w0 := set_calls (calls w ++ [f_go_numpy]) w).
  assert (Ha0 : heap w0 !! a = Some arr) by exact Ha.
  run (load_ok _ _ _ Ha0).
  unfold np_add_scalar. run (load_ok _ _ _ Ha0).
  reflexivity.
Qed.

(** ** [random_directions]: the loop and the whole function *)

Lemma np_arccos_ok x w : -1 <= x <= 1 -> np_arccos x w = (Ok (acos x), w).
Proof.
  intros [H1 H2]. unfold np_arccos.
  destruct (Rle_dec (-1) x); [|contradiction].
  destruct (Rle_dec x 1); [reflexivity|contradiction].
Qed.

Lemma np_arccos_outside x w : ~ -1 <= x <= 1 -> np_arccos x w = (Raise DomainError, w).
Proof.
  intros H. unfold np_arccos.
  destruct (Rle_dec (-1) x); [|reflexivity].
  destruct (Rle_dec x 1); [|reflexivity]. exfalso. apply H. split; assumption.
Qed.

Lemma unit_draw_in_arccos_domain u : 0 <= u < 1 -> -1 <= -1 + (1 - -1) * u <= 1.
Proof. intros [H0 H1]. split; lra. Qed.

Lemma np_setitem_row_ok out i row arr w :
  heap w !! out = Some arr ->
  (i < length (arr_rows arr))%nat -> length row = arr_ncols arr ->
  np_setitem_row out i row w
  = (Ok tt, set_heap (<[out := mk_ndarray (arr_dtype arr) (arr_ncols arr)
                                          (<[i := row]> (arr_rows arr))]> (heap w)) w).
Proof.
  intros Ha Hi Hrow. unfold np_setitem_row.
  run (load_ok _ _ _ Ha).
  destruct (decide (i < length (arr_rows arr))%nat); [|contradiction].
  destruct (decide (length row = arr_ncols arr)); [|contradiction].
  reflexivity.
Qed.

Lemma random_uniform_run a b h g p fm c it :
  random_uniform a b (mk_world h g p fm c it)
  = (Ok (a + (b - a) * g p), mk_world h g (S p) fm c it).
Proof. reflexivity. Qed.

Lemma spherical_to_cartesian_run r theta phi h g p fm c it :
  spherical_to_cartesian r theta phi (mk_world h g p fm c it)
  = (Ok (r * sin theta * cos phi, r * sin theta * sin phi, r * cos theta),
     mk_world h g p fm (c ++ [f_spherical_to_cartesian]) it).
Proof. reflexivity. Qed.

(** One iteration of the loop of [random_directions]. *)
Lemma random_directions_body out r i rows h g p fm c it :
  h !! out = Some (mk_ndarray float64 3 rows) ->
  (i < length rows)%nat ->
  -1 <= -1 + (1 - -1) * g (S p) <= 1 ->
  (phi <- random_uniform 0 (2 * PI) ;;
   u <- random_uniform (-1) 1 ;;
   theta <- np_arccos u ;;
   xyz <- spherical_to_cartesian r theta phi ;;
   let '(x, y, z) := xyz in
   np_setitem_row out i [x; y; z]) (mk_world h g p fm c it)
  = (Ok tt,
     mk_world
       (<[out := mk_ndarray float64 3
                   (<[i := [ r * sin (acos (-1 + (1 - -1) * g (S p)))
                               * cos (0 + (2 * PI - 0) * g p);
                             r * sin (acos (-1 + (1 - -1) * g (S p)))
                               * sin (0 + (2 * PI - 0) * g p);
                             r * cos (acos (-1 + (1 - -1) * g (S p))) ]]> rows)]> h)
       g (S (S p)) fm (c ++ [f_spherical_to_cartesian]) it).
Proof.
  intros Hout Hi Hdom.
  run (random_uniform_run 0 (2 * PI) h g p fm c it).
  run (random_uniform_run (-1) 1 h g (S p) fm c it).
  run (np_arccos_ok _ _ Hdom).
  run (spherical_to_cartesian_run r _ _ h g (S (S p)) fm c it).
  cbv beta iota zeta.
  rewrite (np_setitem_row_ok out i _ (mk_ndarray float64 3 rows));
    [reflexivity | exact Hout | exact Hi | reflexivity].
Qed.

Lemma random_directions_loop out r g p0 fm m : forall k rows h c it,
  h !! out = Some (mk_ndarray float64 3 rows) ->
  (k + m <= length rows)%nat ->
  (forall i, (k <= i < k + m)%nat -> -1 <= arccos_arg_at g p0 i <= 1) ->
  for_each (seq k m) (fun i _ =>
    phi <- random_uniform 0 (2 * PI) ;;
    u <- random_uniform (-1) 1 ;;
    theta <- np_arccos u ;;
    xyz <- spherical_to_cartesian r theta phi ;;
    let '(x, y, z) := xyz in
    np_setitem_row out i [x; y; z]) tt (mk_world h g (p0 + 2 * k) fm c it)
  = (Ok tt,
     mk_world (<[out := mk_ndarray float64 3 (rows_after r g p0 k m rows)]> h)
              g (p0 + 2 * (k + m)) fm
              (c ++ repeat f_spherical_to_cartesian m) (it + m)).
Proof.
  induction m as [|m IH]; intros k rows h c it Hout Hlen Hdom.
  - cbn [seq for_each repeat]. unfold ret, rows_after. cbn [seq fold_left].
    rewrite list_insert_id by exact Hout.
    rewrite app_nil_r, !Nat.add_0_r. reflexivity.
  - cbn [seq for_each].
    rewrite (bind_ok tick _ _ tt (mk_world h g (p0 + 2 * k) fm c (S it)))
      by reflexivity.
    assert (Hk : -1 <= -1 + (1 - -1) * g (S (p0 + 2 * k)) <= 1).
    { specialize (Hdom k ltac:(lia)). unfold arccos_arg_at in Hdom.
      replace (S (p0 + 2 * k)) with (p0 + 2 * k + 1)%nat by lia. exact Hdom. }
    rewrite (bind_ok _ _ _ _ _
      (random_directions_body out r k rows h g (p0 + 2 * k) fm c (S it)
         Hout ltac:(lia) Hk)).
    assert (Hrow :
      [ r * sin (acos (-1 + (1 - -1) * g (S (p0 + 2 * k))))
          * cos (0 + (2 * PI - 0) * g (p0 + 2 * k)%nat);
        r * sin (acos (-1 + (1 - -1) * g (S (p0 + 2 * k))))
          * sin (0 + (2 * PI - 0) * g (p0 + 2 * k)%nat);
        r * cos (acos (-1 + (1 - -1) * g (S (p0 + 2 * k)))) ]
      = direction r g p0 k).
    { unfold direction, theta_at, phi_at, arccos_arg_at.
      replace (p0 + 2 * k + 1)%nat with (S (p0 + 2 * k)) by lia. reflexivity. }
    rewrite Hrow.
    replace (S (S (p0 + 2 * k))) with (p0 + 2 * S k)%nat by lia.
    rewrite (IH (S k) (<[k := direction r g p0 k]> rows)).
    + rewrite list_insert_insert_eq.
      replace (p0 + 2 * (S k + m))%nat with (p0 + 2 * (k + S m))%nat by lia.
      replace (S it + m)%nat with (it + S m)%nat by lia.
      rewrite <- app_assoc. reflexivity.
    + apply list_lookup_insert_eq. eapply lookup_lt_Some. exact Hout.
    + rewrite length_insert. lia.
    + intros i Hi. apply Hdom. lia.
Qed.

(** Writing row [i] for every [i < n] leaves none of the initial rows. *)
Lemma rows_after_lookup r g p0 m : forall k rows j,
  (k + m <= length rows)%nat ->
  rows_after r g p0 k m rows !! j
  = if decide (k <= j < k + m)%nat then Some (direction r g p0 j) else rows !! j.
Proof.
  unfold rows_after. induction m as [|m IH]; intros k rows j Hlen; cbn [seq fold_left].
  - destruct (decide (k <= j < k + 0)%nat); [lia|reflexivity].
  - rewrite IH by (rewrite length_insert; lia).
    destruct (decide (S k <= j < S k + m)%nat) as [H1|H1];
      destruct (decide (k <= j < k + S m)%nat) as [H2|H2]; try reflexivity; try lia.
    + destruct (decide (j = k)) as [->|Hne].
      * apply list_lookup_insert_eq. lia.
      * lia.
    + apply list_lookup_insert_ne. lia.
Qed.

Lemma rows_after_all r g p0 n rows :
  length rows = n ->
  rows_after r g p0 0 n rows = map (direction r g p0) (seq 0 n).
Proof.
  intros Hlen. apply list_eq. intros j.
  rewrite rows_after_lookup by lia.
  change (map (direction r g p0) (seq 0 n)) with (direction r g p0 <$> seq 0 n).
  rewrite list_lookup_fmap.
  destruct (decide (0 <= j < 0 + n)%nat) as [H|H].
  - rewrite lookup_seq_lt by lia. reflexivity.
  - rewrite lookup_seq_ge by lia. apply lookup_ge_None. lia.
Qed.

(** A call of [random_directions] whose [arccos] arguments are in range. *)
Lemma random_directions_run n r h g p fm c it :
  (0 <= n)%Z ->
  (forall i, (i < Z.to_nat n)%nat -> -1 <= arccos_arg_at g p i <= 1) ->
  random_directions n r (mk_world h g p fm c it)
  = (Ok (length h),
     mk_world (h ++ [mk_ndarray float64 3 (map (direction r g p) (seq 0 (Z.to_nat n)))])
              g (p + 2 * Z.to_nat n) fm
              (c ++ f_random_directions :: repeat f_spherical_to_cartesian (Z.to_nat n))
              (it + Z.to_nat n)).
Proof.
  intros Hn Hdom. unfold random_directions.
  rewrite (bind_ok (enter f_random_directions) _ _ tt
             (mk_world h g p fm (c ++ [f_random_directions]) it)) by reflexivity.
  set (junk := map (fun i => map (fun j => fm (i * 3 + j)%nat) (seq 0 3))
                   (seq 0 (Z.to_nat n))).
  rewrite (bind_ok (np_empty n 3 float64) _ _ (length h)
             (mk_world (h ++ [mk_ndarray float64 3 junk]) g p fm
                       (c ++ [f_random_directions]) it)).
  2:{ unfold np_empty. destruct (n <? 0)%Z eqn:E; [lia|]. reflexivity. }
  unfold for_range.
  assert (Hjunk : length junk = Z.to_nat n)
    by (unfold junk; rewrite length_map, length_seq; reflexivity).
  pose proof (random_directions_loop (length h) r g p fm (Z.to_nat n) 0 junk
                (h ++ [mk_ndarray float64 3 junk]) (c ++ [f_random_directions]) it)
    as Hloop.
  replace (p + 2 * 0)%nat with p in Hloop by lia.
  run (Hloop (list_lookup_middle _ _ _ _ eq_refl)
                                 ltac:(lia) ltac:(intros; apply Hdom; lia)).
  unfold ret. f_equal. f_equal.
  - rewrite insert_app_r_alt by lia. rewrite Nat.sub_diag. cbn [insert list_insert].
    rewrite rows_after_all by exact Hjunk. reflexivity.
  - rewrite <- app_assoc. reflexivity.
Qed.

Lemma rng_ok_arccos_domain g p :
  (forall k, 0 <= g k < 1) -> forall i, -1 <= arccos_arg_at g p i <= 1.
Proof. intros Hg i. apply unit_draw_in_arccos_domain, Hg. Qed.

(** The same call in terms of the world: the generator yields numbers in
    [0, 1), which is all [arccos] needs. *)
Lemma random_directions_ok n r w :
  (0 <= n)%Z -> rng_ok w ->
  random_directions n r w
  = (Ok (length (heap w)),
     mk_world
       (heap w ++ [mk_ndarray float64 3
                     (map (direction r (rng_stream w) (rng_pos w)) (seq 0 (Z.to_nat n)))])
       (rng_stream w) (rng_pos w + 2 * Z.to_nat n) (fresh_mem w)
       (calls w ++ f_random_directions :: repeat f_spherical_to_cartesian (Z.to_nat n))
       (iters w + Z.to_nat n)).
Proof.
  intros Hn Hok. destruct w as [h g p fm c it]. cbn [heap rng_stream rng_pos fresh_mem calls iters].
  apply random_directions_run; [exact Hn|].
  intros i _. apply rng_ok_arccos_domain. exact Hok.
Qed.

(** ** Consequences used by several properties *)

Lemma lookup_fresh (h : list ndarray) (a : ndarray) : (h ++ [a]) !! length h = Some a.
Proof. apply list_lookup_middle. reflexivity. Qed.

Lemma lookup_old (h : list ndarray) (a b : ndarray) (l : loc) :
  h !! l = Some a -> (h ++ [b]) !! l = Some a.
Proof. intros H. apply lookup_app_l_Some. exact H. Qed.

Lemma outcome_go_fast a arr w :
  heap w !! a = Some arr ->
  outcome (go_fast a w)
  = match fst (diag_loop arr (seq 0 (length (arr_rows arr))) 0) with
    | Ok t => Ok (add_scalar arr t)
    | Raise e => Raise e
    end.
Proof.
  intros Ha. rewrite (go_fast_run a arr w Ha). cbv zeta.
  destruct (fst (diag_loop arr (seq 0 (length (arr_rows arr))) 0)) as [t|e];
    [|reflexivity].
  unfold outcome. cbn [heap set_heap]. now rewrite lookup_fresh.
Qed.

Lemma outcome_random_directions n r w :
  (0 <= n)%Z -> rng_ok w ->
  outcome (random_directions n r w)
  = Ok (mk_ndarray float64 3
          (map (direction r (rng_stream w) (rng_pos w)) (seq 0 (Z.to_nat n)))).
Proof.
  intros Hn Hok. rewrite (random_directions_ok n r w Hn Hok).
  unfold outcome. cbn [heap]. now rewrite lookup_fresh.
Qed.

Lemma entry_add_scalar arr s i j :
  entry (add_scalar arr s) i j = (fun x => x + s) <$> entry arr i j.
Proof.
  unfold entry, add_scalar. cbn [arr_rows].
  change (map (map (fun x => x + s)) (arr_rows arr))
    with (map (fun x => x + s) <$> arr_rows arr).
  rewrite list_lookup_fmap.
  destruct (arr_rows arr !! i) as [row|]; [|reflexivity].
  cbn. change (map (fun x => x + s) row) with ((fun x => x + s) <$> row).
  apply list_lookup_fmap.
Qed.

Lemma iters_bind {A B} a b (m : M A) (k : A -> M B) :
  iters_at_most a m -> (forall v, iters_at_most b (k v)) ->
  iters_at_most (a + b) (bind m k).
Proof.
  intros Hm Hk w. unfold bind. specialize (Hm w).
  destruct (m w) as [[v|e] w1]; cbn [snd] in *.
  - specialize (Hk v w1). lia.
  - lia.
Qed.

Lemma iters_weaken {A} a b (m : M A) :
  (a <= b)%nat -> iters_at_most a m -> iters_at_most b m.
Proof. intros Hab Hm w. specialize (Hm w). lia. Qed.

Lemma iters_ret {A} (v : A) : iters_at_most 0 (ret v).
Proof. intros w. cbn. lia. Qed.

Lemma iters_enter f : iters_at_most 0 (enter f).
Proof. intros w. cbn. lia. Qed.

Lemma iters_load l : iters_at_most 0 (load l).
Proof. intros w. unfold load. destruct (heap w !! l); cbn; lia. Qed.

Lemma iters_random_uniform a b : iters_at_most 0 (random_uniform a b).
Proof. intros w. cbn. lia. Qed.

Lemma iters_np_arccos x : iters_at_most 0 (np_arccos x).
Proof.
  intros w. unfold np_arccos.
  destruct (Rle_dec (-1) x); [destruct (Rle_dec x 1)|]; cbn; lia.
Qed.

Lemma iters_spherical_to_cartesian r theta phi :
  iters_at_most 0 (spherical_to_cartesian r theta phi).
Proof. intros w. cbn. lia. Qed.

Lemma iters_np_setitem_row out i row : iters_at_most 0 (np_setitem_row out i row).
Proof.
  unfold np_setitem_row. apply (iters_bind 0 0); [apply iters_load|].
  intros arr w.
  destruct (decide (i < length (arr_rows arr))%nat); [|cbn; lia].
  destruct (decide (length row = arr_ncols arr)); cbn; lia.
Qed.

Lemma iters_np_empty n c dt : iters_at_most 0 (np_empty n c dt).
Proof. intros w. unfold np_empty. destruct (n <? 0)%Z; cbn; lia. Qed.

Create HintDb iters.
#[local] Hint Resolve iters_ret iters_enter iters_load iters_random_uniform
  iters_np_arccos iters_spherical_to_cartesian iters_np_setitem_row
  iters_np_empty : iters.

(** A [for] loop over [l] starts at most [length l] iterations. *)
Lemma iters_for_each {St} (body : nat -> St -> M St) :
  (forall i s, iters_at_most 0 (body i s)) ->
  forall l s, iters_at_most (length l) (for_each l body s).
Proof.
  intros Hbody. induction l as [|i l IH]; intros s; cbn [for_each length].
  - apply iters_ret.
  - intros w.
    rewrite (bind_ok tick _ w tt (set_iters (S (iters w)) w)) by reflexivity.
    pose proof (iters_bind 0 (length l) (body i s) (fun s' => for_each l body s')
                  (Hbody i s) IH (set_iters (S (iters w)) w)) as H.
    cbn [iters set_iters] in H. cbn [Nat.add] in H. lia.
Qed.

Lemma iters_random_directions n r : iters_at_most (Z.to_nat n) (random_directions n r).
Proof.
  unfold random_directions.
  apply (iters_weaken (0 + (0 + (Z.to_nat n + 0)))); [lia|].
  apply iters_bind; [auto with iters|intros _].
  apply iters_bind; [auto with iters|intros out].
  apply iters_bind; [|auto with iters].
  unfold for_range.
  apply (iters_weaken (length (seq 0 (Z.to_nat n)))); [rewrite length_seq; lia|].
  apply iters_for_each. intros i _.
  do 4 (apply (iters_bind 0 0); [auto with iters|intros ?]).
  destruct v2 as [[x y] z]. auto with iters.
Qed.

Lemma session_world_ok : rng_ok session_world.
Proof.
  intros k. unfold session_world, session_stream. cbn [rng_stream].
  destruct (k <? 2)%nat; lra.
Qed.

(** ** What a call leaves behind *)

Lemma go_fast_frame a arr w :
  heap w !! a = Some arr ->
  persistent_state_unchanged w (snd (go_fast a w)).
Proof.
  intros Ha. rewrite (go_fast_run a arr w Ha). cbv zeta.
  destruct (fst (diag_loop arr (seq 0 (length (arr_rows arr))) 0)) as [t|e];
    cbn [snd]; (split; [|repeat split]).
  - intros l b Hl. cbn [heap set_heap]. apply lookup_old. exact Hl.
  - intros l b Hl. exact Hl.
Qed.

Lemma spherical_to_cartesian_frame r theta phi w :
  persistent_state_unchanged w (snd (spherical_to_cartesian r theta phi w)) /\
  heap (snd (spherical_to_cartesian r theta phi w)) = heap w.
Proof.
  split; [split; [intros l a H; exact H|repeat split]|reflexivity].
Qed.

Lemma random_directions_frame n r w :
  (0 <= n)%Z -> rng_ok w ->
  heap_preserved w (snd (random_directions n r w)) /\
  rng_stream (snd (random_directions n r w)) = rng_stream w /\
  fresh_mem (snd (random_directions n r w)) = fresh_mem w /\
  rng_pos (snd (random_directions n r w)) = (rng_pos w + 2 * Z.to_nat n)%nat.
Proof.
  intros Hn Hok. rewrite (random_directions_ok n r w Hn Hok). cbn [snd].
  split; [|repeat split].
  intros l b Hl. cbn [heap]. apply lookup_old. exact Hl.
Qed.

Lemma np_arccos_raises_iff x w :
  fst (np_arccos x w) = Raise DomainError <-> ~ -1 <= x <= 1.
Proof.
  split.
  - intros H Hx. rewrite (np_arccos_ok x w Hx) in H. discriminate.
  - intros H. now rewrite (np_arccos_outside x w H).
Qed.

Lemma calls_during_app {A} (m : M A) w l :
  calls (snd (m w)) = calls w ++ l -> calls_during m w = l.
Proof. intros H. unfold calls_during. rewrite H. apply drop_app_length. Qed.

Lemma diag_loop_raises arr l : forall t e,
  fst (diag_loop arr l t) = Raise e -> e = IndexError.
Proof.
  induction l as [|i l IH]; intros t e; cbn [diag_loop].
  - discriminate.
  - destruct (entry arr i i) as [x|].
    + specialize (IH (t + tanh x) e).
      destruct (diag_loop arr l (t + tanh x)) as [res k]. exact IH.
    + cbn. congruence.
Qed.

Lemma spherical_norm r theta phi :
  (r * sin theta * cos phi) * (r * sin theta * cos phi)
  + (r * sin theta * sin phi) * (r * sin theta * sin phi)
  + (r * cos theta) * (r * cos theta)
  = r * r.
Proof.
  pose proof (sin2_cos2 theta) as Ht. pose proof (sin2_cos2 phi) as Hp.
  unfold Rsqr in Ht, Hp.
  replace ((r * sin theta * cos phi) * (r * sin theta * cos phi)
           + (r * sin theta * sin phi) * (r * sin theta * sin phi)
           + (r * cos theta) * (r * cos theta))
    with (r * r * ((sin theta * sin theta) * (sin phi * sin phi + cos phi * cos phi)
                   + cos theta * cos theta)) by ring.
  rewrite Hp, Rmult_1_r, Ht. ring.
Qed.

(** ** C2: what [go_fast] computes *)

(** C2: for every square matrix [a], [go_fast(a)] returns a new array
    that is [a] with the scalar [tanh_trace a] added to every entry, where
    [tanh_trace a] is the sum of [tanh(a[i, i])] accumulated over the
    diagonal in index order starting from 0.0. *)
Theorem go_fast_adds_tanh_trace w a arr :
  heap w !! a = Some arr ->
  square arr ->
  exists l w',
    go_fast a w = (Ok l, w') /\
    heap w' !! l = Some (add_scalar arr (tanh_trace arr)) /\
    shape (add_scalar arr (tanh_trace arr)) = shape arr /\
    (forall i j x, entry arr i j = Some x ->
       entry (add_scalar arr (tanh_trace arr)) i j = Some (x + tanh_trace arr)) /\
    tanh_trace arr
      = fold_left (fun t i => t + tanh (at_diag arr i))
                  (seq 0 (length (arr_rows arr))) 0 /\
    (forall i, (i < length (arr_rows arr))%nat ->
       entry arr i i = Some (at_diag arr i)).
Proof.
  intros Ha [Hwf Hsq].
  assert (Hle : (length (arr_rows arr) <= arr_ncols arr)%nat) by lia.
  eexists _, _. split; [apply (go_fast_ok a arr w Ha Hwf Hle)|].
  split; [cbn [heap set_heap]; apply lookup_fresh|].
  split; [unfold shape, add_scalar; cbn [arr_rows arr_ncols];
          now rewrite length_map|].
  split; [|split; [reflexivity|]].
  - intros i j x Hx. rewrite entry_add_scalar, Hx. reflexivity.
  - intros i Hi. pose proof (diag_in_bounds arr Hwf Hle) as Hall.
    rewrite Forall_forall in Hall.
    destruct (Hall i) as [x Hx]; [apply elem_of_seq; lia|].
    unfold at_diag. rewrite Hx. reflexivity.
Qed.

Lemma go_fast_adds_tanh_trace_witness :
  exists l w',
    go_fast 0%nat square_world = (Ok l, w') /\
    heap w' !! l = Some (add_scalar small_square (tanh_trace small_square)) /\
    shape (add_scalar small_square (tanh_trace small_square)) = shape small_square /\
    (forall i j x, entry small_square i j = Some x ->
       entry (add_scalar small_square (tanh_trace small_square)) i j
       = Some (x + tanh_trace small_square)) /\
    tanh_trace small_square
      = fold_left (fun t i => t + tanh (at_diag small_square i))
                  (seq 0 (length (arr_rows small_square))) 0 /\
    (forall i, (i < length (arr_rows small_square))%nat ->
       entry small_square i i = Some (at_diag small_square i)).
Proof.
  apply (go_fast_adds_tanh_trace square_world 0%nat small_square).
  - reflexivity.
  - split; [repeat constructor | reflexivity].
Defined.

(** On [np.arange(4).reshape(2, 2)] the scalar is [0.0 + tanh 0 + tanh 3]. *)
Example tanh_trace_small_square :
  tanh_trace small_square = 0 + tanh 0 + tanh 3.
Proof. reflexivity. Qed.

(** ** C3: which example functions are pure *)

(** C3, as stated, fails for [random_directions]: two calls with the same
    arguments [(1, 1.0)], one after the other in the same session, return
    different arrays, because the second call sees the generator where the
    first left it. *)
Lemma random_directions_twice_differs :
  rng_ok session_world /\
  outcome (random_directions 1 1 session_world)
  <> outcome (random_directions 1 1 (snd (random_directions 1 1 session_world))).
Proof.
  split; [exact session_world_ok|].
  rewrite (outcome_random_directions 1 1 session_world ltac:(lia) session_world_ok).
  rewrite (random_directions_ok 1 1 session_world ltac:(lia) session_world_ok).
  cbn [snd].
  rewrite outcome_random_directions;
    [|lia|intros k; apply session_world_ok].
  cbn [rng_stream rng_pos session_world].
  change (Z.to_nat 1) with 1%nat. cbn [seq map].
  intros H. injection H as _ _ H.
  assert (E1 : arccos_arg_at session_stream 0 0 = -1).
  { unfold arccos_arg_at. change (session_stream (0 + 2 * 0 + 1)) with 0. lra. }
  assert (E2 : arccos_arg_at session_stream 2 0 = 0).
  { unfold arccos_arg_at. change (session_stream (2 + 2 * 0 + 1)) with (1 / 2). lra. }
  unfold theta_at in H. rewrite E1, E2 in H.
  rewrite !cos_acos in H by lra. lra.
Qed.

(** C3 (amended): on the matrices it is written for, those with no more
    rows than columns and so every square one, [go_fast] is pure: equal
    matrices give equal result arrays whatever the rest of the world is,
    and the call changes neither an existing array nor the generator.
    [spherical_to_cartesian] is pure for all arguments.
    [random_directions] is not a function of [(n, r)] alone: its result is
    determined by [n], [r] and the numbers the generator yields from its
    current position on, and the call advances the generator by [2 n]
    draws. *)
Theorem purity_of_the_examples :
  (forall w1 w2 a1 a2 arr,
     heap w1 !! a1 = Some arr -> heap w2 !! a2 = Some arr ->
     wf_array arr -> (length (arr_rows arr) <= arr_ncols arr)%nat ->
     outcome (go_fast a1 w1) = outcome (go_fast a2 w2) /\
     (exists out, outcome (go_fast a1 w1) = Ok out) /\
     persistent_state_unchanged w1 (snd (go_fast a1 w1))) /\
  (forall r theta phi w1 w2,
     fst (spherical_to_cartesian r theta phi w1)
     = fst (spherical_to_cartesian r theta phi w2) /\
     persistent_state_unchanged w1 (snd (spherical_to_cartesian r theta phi w1))) /\
  (forall n r w1 w2,
     (0 <= n)%Z -> rng_ok w1 -> rng_ok w2 ->
     (forall k, rng_stream w1 (rng_pos w1 + k) = rng_stream w2 (rng_pos w2 + k)) ->
     outcome (random_directions n r w1) = outcome (random_directions n r w2) /\
     rng_pos (snd (random_directions n r w1)) = (rng_pos w1 + 2 * Z.to_nat n)%nat).
Proof.
  split; [|split].
  - intros w1 w2 a1 a2 arr H1 H2 Hwf Hle.
    rewrite (outcome_go_fast a1 arr w1 H1), (outcome_go_fast a2 arr w2 H2).
    rewrite (diag_loop_in_bounds arr _ 0 (diag_in_bounds arr Hwf Hle)).
    split; [reflexivity|]. split; [eexists; reflexivity|].
    apply (go_fast_frame a1 arr w1 H1).
  - intros r theta phi w1 w2. split; [reflexivity|].
    apply spherical_to_cartesian_frame.
  - intros n r w1 w2 Hn Hok1 Hok2 Hsame. split.
    + rewrite (outcome_random_directions n r w1 Hn Hok1).
      rewrite (outcome_random_directions n r w2 Hn Hok2).
      do 2 f_equal. apply map_ext. intros i.
      unfold direction, theta_at, phi_at, arccos_arg_at.
      rewrite <- !Nat.add_assoc, !Hsame. reflexivity.
    + apply (random_directions_frame n r w1 Hn Hok1).
Qed.

Lemma purity_of_the_examples_witness :
  (outcome (go_fast 0%nat square_world) = outcome (go_fast 1%nat later_world) /\
   (exists out, outcome (go_fast 0%nat square_world) = Ok out) /\
   persistent_state_unchanged square_world (snd (go_fast 0%nat square_world))) /\
  (outcome (random_directions 1 1 session_world)
   = outcome (random_directions 1 1 later_world) /\
   rng_pos (snd (random_directions 1 1 session_world))
   = (rng_pos session_world + 2 * Z.to_nat 1)%nat).
Proof.
  destruct purity_of_the_examples as [Hgo [_ Hrd]]. split.
  - apply (Hgo square_world later_world 0%nat 1%nat small_square).
    + reflexivity.
    + reflexivity.
    + repeat constructor.
    + simpl. lia.
  - apply (Hrd 1%Z 1 session_world later_world).
    + lia.
    + intros k. unfold session_world, session_stream. cbn [rng_stream].
      destruct (k <? 2)%nat; lra.
    + intros k. unfold later_world, session_stream. cbn [rng_stream].
      destruct (k - 5 <? 2)%nat; lra.
    + intros k. unfold later_world, session_world. cbn [rng_stream rng_pos].
      f_equal. lia.
Defined.

(** ** C4: no error state under the preconditions *)

(** C4: under the preconditions (the input of [go_fast] is a square
    matrix, the count [n] is not negative, the generator yields numbers in
    [0, 1)) no example function raises: every index [a[i, i]] of [go_fast]
    is in bounds, [random.uniform(-1, 1)] lies in [-1, 1], so [np.arccos]
    accepts it, and [random_directions] and [spherical_to_cartesian]
    return normally. *)
Theorem no_error_under_preconditions :
  (forall w a arr,
     heap w !! a = Some arr -> square arr ->
     (forall i, (i < length (arr_rows arr))%nat -> is_Some (entry arr i i)) /\
     exists l w', go_fast a w = (Ok l, w')) /\
  (forall r theta phi w, exists v w',
     spherical_to_cartesian r theta phi w = (Ok v, w')) /\
  (forall w u w',
     rng_ok w -> random_uniform (-1) 1 w = (Ok u, w') ->
     -1 <= u <= 1 /\ np_arccos u w' = (Ok (acos u), w')) /\
  (forall n r w,
     (0 <= n)%Z -> rng_ok w ->
     exists l w', random_directions n r w = (Ok l, w')).
Proof.
  split; [|split; [|split]].
  - intros w a arr Ha [Hwf Hsq].
    assert (Hle : (length (arr_rows arr) <= arr_ncols arr)%nat) by lia.
    split.
    + intros i Hi. pose proof (diag_in_bounds arr Hwf Hle) as Hall.
      rewrite Forall_forall in Hall. apply Hall, elem_of_seq. lia.
    + eexists _, _. apply (go_fast_ok a arr w Ha Hwf Hle).
  - intros r theta phi w. eexists _, _. reflexivity.
  - intros w u w' Hok Hu. destruct w as [h g p fm c it].
    rewrite random_uniform_run in Hu. injection Hu as <- <-.
    pose proof (unit_draw_in_arccos_domain (g p) (Hok p)) as Hdom.
    split; [exact Hdom|]. apply np_arccos_ok. exact Hdom.
  - intros n r w Hn Hok. eexists _, _. apply (random_directions_ok n r w Hn Hok).
Qed.

Lemma no_error_under_preconditions_witness :
  ((forall i, (i < length (arr_rows small_square))%nat ->
      is_Some (entry small_square i i)) /\
   exists l w', go_fast 0%nat square_world = (Ok l, w')) /\
  (-1 <= -1 + (1 - -1) * 0 <= 1 /\
   np_arccos (-1 + (1 - -1) * 0)
             (mk_world [small_square] (fun _ => 0) 1%nat (fun _ => 0) [] 0%nat)
   = (Ok (acos (-1 + (1 - -1) * 0)),
      mk_world [small_square] (fun _ => 0) 1%nat (fun _ => 0) [] 0%nat)) /\
  exists l w', random_directions 2 1 square_world = (Ok l, w').
Proof.
  destruct no_error_under_preconditions as [Hgo [_ [Hu Hrd]]].
  split; [|split].
  - apply (Hgo square_world 0%nat small_square).
    + reflexivity.
    + split; [repeat constructor | reflexivity].
  - apply (Hu square_world).
    + intros k. cbn. lra.
    + reflexivity.
  - apply (Hrd 2%Z 1 square_world).
    + lia.
    + intros k. cbn. lra.
Defined.

(** ** C5: what persists across calls *)

(** C5, as stated, fails for [random_directions]: the state of the
    generator persists from one call to the next, and the call changes it. *)
Lemma random_directions_moves_generator :
  rng_ok session_world /\
  ~ persistent_state_unchanged session_world
      (snd (random_directions 1 1 session_world)).
Proof.
  split; [exact session_world_ok|].
  intros [_ [_ [Hpos _]]].
  rewrite (random_directions_ok 1 1 session_world ltac:(lia) session_world_ok) in Hpos.
  cbn in Hpos. discriminate.
Qed.

(** C5 (amended): no example function changes its arguments or any array
    that existed before the call: [go_fast] leaves its matrix as it was and
    only allocates its result, [spherical_to_cartesian] touches no array,
    [random_directions] writes only to the array it allocates.  The state
    that does persist from one call to the next is the generator's:
    [go_fast] and [spherical_to_cartesian] leave it alone and
    [random_directions(n, r)] advances it by [2 n] draws. *)
Theorem arguments_are_not_mutated :
  (forall w a arr,
     heap w !! a = Some arr ->
     heap (snd (go_fast a w)) !! a = Some arr /\
     persistent_state_unchanged w (snd (go_fast a w))) /\
  (forall r theta phi w,
     heap (snd (spherical_to_cartesian r theta phi w)) = heap w /\
     persistent_state_unchanged w (snd (spherical_to_cartesian r theta phi w))) /\
  (forall n r w,
     (0 <= n)%Z -> rng_ok w ->
     heap_preserved w (snd (random_directions n r w)) /\
     rng_stream (snd (random_directions n r w)) = rng_stream w /\
     fresh_mem (snd (random_directions n r w)) = fresh_mem w /\
     rng_pos (snd (random_directions n r w)) = (rng_pos w + 2 * Z.to_nat n)%nat).
Proof.
  split; [|split].
  - intros w a arr Ha. pose proof (go_fast_frame a arr w Ha) as Hf.
    split; [|exact Hf]. destruct Hf as [Hh _]. apply Hh. exact Ha.
  - intros r theta phi w.
    destruct (spherical_to_cartesian_frame r theta phi w) as [H1 H2].
    split; assumption.
  - intros n r w Hn Hok. apply (random_directions_frame n r w Hn Hok).
Qed.

Lemma arguments_are_not_mutated_witness :
  (heap (snd (go_fast 1%nat later_world)) !! 1%nat = Some small_square /\
   persistent_state_unchanged later_world (snd (go_fast 1%nat later_world))) /\
  (heap_preserved later_world (snd (random_directions 2 1 later_world)) /\
   rng_stream (snd (random_directions 2 1 later_world)) = rng_stream later_world /\
   fresh_mem (snd (random_directions 2 1 later_world)) = fresh_mem later_world /\
   rng_pos (snd (random_directions 2 1 later_world))
   = (rng_pos later_world + 2 * Z.to_nat 2)%nat).
Proof.
  destruct arguments_are_not_mutated as [Hgo [_ Hrd]]. split.
  - apply (Hgo later_world 1%nat small_square). reflexivity.
  - apply (Hrd 2%Z 1 later_world).
    + lia.
    + intros k. unfold later_world, session_stream. cbn [rng_stream].
      destruct (k - 5 <? 2)%nat; lra.
Defined.

(** ** C6: which example function calls which *)

(** C6, as stated, fails: [random_directions] calls
    [spherical_to_cartesian], once in every iteration of its loop. *)
Lemma random_directions_calls_spherical_to_cartesian :
  calls_during (random_directions 1 1) session_world
    = [f_random_directions; f_spherical_to_cartesian] /\
  ~ invokes_no_other f_random_directions (random_directions 1 1) session_world.
Proof.
  assert (H : calls_during (random_directions 1 1) session_world
              = [f_random_directions; f_spherical_to_cartesian]).
  { apply calls_during_app.
    rewrite (random_directions_ok 1 1 session_world ltac:(lia) session_world_ok).
    reflexivity. }
  split; [exact H|]. unfold invokes_no_other. rewrite H. discriminate.
Qed.

(** C6 (amended): [go_fast], [go_numpy] and [spherical_to_cartesian] call
    no other function of the notebook.  [random_directions(n, r)] calls
    [spherical_to_cartesian] once per row and no other function of the
    notebook, and row [i] of its result is the triple that call returns for
    the angles of iteration [i]. *)
Theorem calls_between_the_examples :
  (forall w a arr,
     heap w !! a = Some arr ->
     invokes_no_other f_go_fast (go_fast a) w /\
     invokes_no_other f_go_numpy (go_numpy a) w) /\
  (forall r theta phi w,
     invokes_no_other f_spherical_to_cartesian (spherical_to_cartesian r theta phi) w) /\
  (forall n r w,
     (0 <= n)%Z -> rng_ok w ->
     calls_during (random_directions n r) w
       = f_random_directions :: repeat f_spherical_to_cartesian (Z.to_nat n) /\
     exists out,
       outcome (random_directions n r w) = Ok out /\
       forall i, (i < Z.to_nat n)%nat ->
         exists x y z,
           arr_rows out !! i = Some [x; y; z] /\
           forall w1,
             fst (spherical_to_cartesian r
                    (theta_at (rng_stream w) (rng_pos w) i)
                    (phi_at (rng_stream w) (rng_pos w) i) w1)
             = Ok (x, y, z)).
Proof.
  split; [|split].
  - intros w a arr Ha. split; apply calls_during_app.
    + rewrite (go_fast_run a arr w Ha). cbv zeta.
      destruct (fst (diag_loop arr (seq 0 (length (arr_rows arr))) 0)); reflexivity.
    + rewrite (go_numpy_run a arr w Ha). reflexivity.
  - intros r theta phi w. apply calls_during_app. reflexivity.
  - intros n r w Hn Hok. split.
    + apply calls_during_app. rewrite (random_directions_ok n r w Hn Hok). reflexivity.
    + eexists. split; [apply (outcome_random_directions n r w Hn Hok)|].
      intros i Hi. eexists _, _, _. split.
      * cbn [arr_rows].
        change (map ?f ?l) with (f <$> l). rewrite list_lookup_fmap.
        rewrite lookup_seq_lt by exact Hi. reflexivity.
      * intros w1. reflexivity.
Qed.

Lemma calls_between_the_examples_witness :
  (invokes_no_other f_go_fast (go_fast 0%nat) square_world /\
   invokes_no_other f_go_numpy (go_numpy 0%nat) square_world) /\
  (calls_during (random_directions 2 1) square_world
     = f_random_directions :: repeat f_spherical_to_cartesian (Z.to_nat 2) /\
   exists out,
     outcome (random_directions 2 1 square_world) = Ok out /\
     forall i, (i < Z.to_nat 2)%nat ->
       exists x y z,
         arr_rows out !! i = Some [x; y; z] /\
         forall w1,
           fst (spherical_to_cartesian 1
                  (theta_at (rng_stream square_world) (rng_pos square_world) i)
                  (phi_at (rng_stream square_world) (rng_pos square_world) i) w1)
           = Ok (x, y, z)).
Proof.
  destruct calls_between_the_examples as [Hgo [_ Hrd]]. split.
  - apply (Hgo square_world 0%nat small_square). reflexivity.
  - apply (Hrd 2%Z 1 square_world).
    + lia.
    + intros k. cbn. lra.
Defined.

(** ** C7: termination *)

(** C7: every example function runs to completion.  [go_fast] returns or
    raises IndexError after at most [a.shape[0]] iterations of its loop,
    for every matrix; [random_directions(n, r)] completes after at most [n]
    iterations for every non-negative [n], whatever the generator yields,
    and with a generator that yields numbers in [0, 1) it returns after
    exactly [n]; [spherical_to_cartesian] has no loop. *)
Theorem every_example_terminates :
  (forall w a arr,
     heap w !! a = Some arr ->
     exists res w',
       go_fast a w = (res, w') /\
       ((exists l, res = Ok l) \/ res = Raise IndexError) /\
       (iters_during (go_fast a) w <= length (arr_rows arr))%nat) /\
  (forall n r w,
     (0 <= n)%Z ->
     exists res w',
       random_directions n r w = (res, w') /\
       (iters_during (random_directions n r) w <= Z.to_nat n)%nat) /\
  (forall n r w,
     (0 <= n)%Z -> rng_ok w ->
     exists l w',
       random_directions n r w = (Ok l, w') /\
       iters_during (random_directions n r) w = Z.to_nat n) /\
  (forall r theta phi w,
     exists v w',
       spherical_to_cartesian r theta phi w = (Ok v, w') /\
       iters_during (spherical_to_cartesian r theta phi) w = 0%nat).
Proof.
  split; [|split; [|split]].
  - intros w a arr Ha. unfold iters_during.
    rewrite (go_fast_run a arr w Ha). cbv zeta.
    pose proof (diag_loop_bound arr (seq 0 (length (arr_rows arr))) 0) as Hb.
    rewrite length_seq in Hb.
    pose proof (diag_loop_raises arr (seq 0 (length (arr_rows arr))) 0) as Hr.
    destruct (diag_loop arr (seq 0 (length (arr_rows arr))) 0) as [[t|e] k];
      cbn [fst snd] in *; eexists _, _; (split; [reflexivity|]).
    + split; [left; eexists; reflexivity|]. cbn [iters set_heap set_iters]. lia.
    + split; [right; f_equal; apply Hr; reflexivity|].
      cbn [iters set_iters]. lia.
  - intros n r w Hn.
    destruct (random_directions n r w) as [res w'] eqn:E.
    eexists _, _. split; [reflexivity|].
    unfold iters_during. pose proof (iters_random_directions n r w) as H.
    rewrite E in *. lia.
  - intros n r w Hn Hok. eexists _, _.
    split; [apply (random_directions_ok n r w Hn Hok)|].
    unfold iters_during. rewrite (random_directions_ok n r w Hn Hok).
    cbn [snd iters]. lia.
  - intros r theta phi w. eexists _, _. split; [reflexivity|].
    unfold iters_during. cbn. lia.
Qed.

Lemma every_example_terminates_witness :
  (exists res w',
     go_fast 0%nat tall_world = (res, w') /\
     ((exists l, res = Ok l) \/ res = Raise IndexError) /\
     (iters_during (go_fast 0%nat) tall_world <= length (arr_rows tall))%nat) /\
  (exists res w',
     random_directions 3 1 session_world = (res, w') /\
     (iters_during (random_directions 3 1) session_world <= Z.to_nat 3)%nat) /\
  (exists l w',
     random_directions 3 1 session_world = (Ok l, w') /\
     iters_during (random_directions 3 1) session_world = Z.to_nat 3).
Proof.
  destruct every_example_terminates as [Hgo [Hrd [Hrd' _]]].
  split; [|split].
  - apply (Hgo tall_world 0%nat tall). reflexivity.
  - apply (Hrd 3%Z 1 session_world). lia.
  - apply (Hrd' 3%Z 1 session_world).
    + lia.
    + intros k. unfold session_world, session_stream. cbn [rng_stream].
      destruct (k <? 2)%nat; lra.
Defined.

(** ** C8: the coordinate conversion *)

(** C8: for every [r], [theta] and [phi], [spherical_to_cartesian]
    returns the triple [(r sin(theta) cos(phi), r sin(theta) sin(phi),
    r cos(theta))], the physics convention. *)
Theorem spherical_to_cartesian_formula r theta phi w :
  fst (spherical_to_cartesian r theta phi w)
  = Ok (r * sin theta * cos phi, r * sin theta * sin phi, r * cos theta).
Proof. reflexivity. Qed.

(** ** C9: every row has norm [r] *)

(** C9: in exact real arithmetic [spherical_to_cartesian] returns a
    point at squared distance [r^2] from the origin for all angles, and so
    every row [(x, y, z)] of [random_directions(n, r)] has
    [x^2 + y^2 + z^2 = r^2], whatever the generator draws. *)
Theorem random_directions_rows_have_norm_r :
  (forall r theta phi w x y z,
     fst (spherical_to_cartesian r theta phi w) = Ok (x, y, z) ->
     x * x + y * y + z * z = r * r) /\
  (forall n r w,
     (0 <= n)%Z -> rng_ok w ->
     exists out,
       outcome (random_directions n r w) = Ok out /\
       length (arr_rows out) = Z.to_nat n /\
       forall i row, arr_rows out !! i = Some row ->
         exists x y z, row = [x; y; z] /\ x * x + y * y + z * z = r * r).
Proof.
  split.
  - intros r theta phi w x y z H.
    cbn in H. injection H as <- <- <-.
    apply spherical_norm.
  - intros n r w Hn Hok. eexists.
    split; [apply (outcome_random_directions n r w Hn Hok)|].
    cbn [arr_rows]. split; [now rewrite length_map, length_seq|].
    intros i row Hrow.
    change (map ?f ?l) with (f <$> l) in Hrow. rewrite list_lookup_fmap in Hrow.
    destruct (seq 0 (Z.to_nat n) !! i) as [j|]; [|discriminate].
    cbn in Hrow. injection Hrow as <-.
    eexists _, _, _. split; [reflexivity|]. apply spherical_norm.
Qed.

Lemma random_directions_rows_have_norm_r_witness :
  (1 * sin 0 * cos 0) * (1 * sin 0 * cos 0)
  + (1 * sin 0 * sin 0) * (1 * sin 0 * sin 0)
  + (1 * cos 0) * (1 * cos 0) = 1 * 1 /\
  exists out,
    outcome (random_directions 2 3 session_world) = Ok out /\
    length (arr_rows out) = Z.to_nat 2 /\
    forall i row, arr_rows out !! i = Some row ->
      exists x y z, row = [x; y; z] /\ x * x + y * y + z * z = 3 * 3.
Proof.
  destruct random_directions_rows_have_norm_r as [Hs Hrd]. split.
  - apply (Hs 1 0 0 session_world). reflexivity.
  - apply (Hrd 2%Z 3 session_world).
    + lia.
    + intros k. unfold session_world, session_stream. cbn [rng_stream].
      destruct (k <? 2)%nat; lra.
Defined.

(** ** C10: the shape of the result of [random_directions] *)

(** C10: for every non-negative [n] and every [r],
    [random_directions(n, r)] returns a float64 array of shape [(n, 3)]
    all of whose rows have been assigned: row [i] is the direction of
    iteration [i], and nothing of what the memory held before [np.empty]
    is left in the result.  [random_directions(0, r)] returns the empty
    [(0, 3)] array, whatever the generator is. *)
Theorem random_directions_shape :
  (forall n r w,
     (0 <= n)%Z -> rng_ok w ->
     exists out,
       outcome (random_directions n r w) = Ok out /\
       shape out = (Z.to_nat n, 3%nat) /\
       arr_dtype out = float64 /\
       wf_array out /\
       (forall i, (i < Z.to_nat n)%nat ->
          arr_rows out !! i
          = Some (direction r (rng_stream w) (rng_pos w) i)) /\
       (forall fm, outcome (random_directions n r (set_fresh_mem fm w)) = Ok out)) /\
  (forall r w,
     outcome (random_directions 0 r w) = Ok (mk_ndarray float64 3 []) /\
     shape (mk_ndarray float64 3 []) = (0%nat, 3%nat)).
Proof.
  split.
  - intros n r w Hn Hok. eexists.
    split; [apply (outcome_random_directions n r w Hn Hok)|].
    split; [unfold shape; cbn [arr_rows arr_ncols];
            now rewrite length_map, length_seq|].
    split; [reflexivity|]. split; [|split].
    + unfold wf_array. cbn [arr_rows arr_ncols].
      apply Forall_forall. intros row Hrow.
      apply list_elem_of_fmap in Hrow. destruct Hrow as [i [-> _]]. reflexivity.
    + intros i Hi. cbn [arr_rows].
      change (map ?f ?l) with (f <$> l). rewrite list_lookup_fmap.
      rewrite lookup_seq_lt by exact Hi. reflexivity.
    + intros fm.
      apply (outcome_random_directions n r (set_fresh_mem fm w) Hn Hok).
  - intros r w. split; [|reflexivity].
    destruct w as [h g p fm c it].
    rewrite (random_directions_run 0 r h g p fm c it ltac:(lia)).
    + unfold outcome. cbn [heap]. rewrite lookup_fresh. reflexivity.
    + intros i Hi. cbn in Hi. lia.
Qed.

Lemma random_directions_shape_witness :
  exists out,
    outcome (random_directions 2 1 session_world) = Ok out /\
    shape out = (Z.to_nat 2, 3%nat) /\
    arr_dtype out = float64 /\
    wf_array out /\
    (forall i, (i < Z.to_nat 2)%nat ->
       arr_rows out !! i
       = Some (direction 1 (rng_stream session_world) (rng_pos session_world) i)) /\
    (forall fm,
       outcome (random_directions 2 1 (set_fresh_mem fm session_world)) = Ok out).
Proof.
  apply (proj1 random_directions_shape 2%Z 1 session_world).
  - lia.
  - intros k. unfold session_world, session_stream. cbn [rng_stream].
    destruct (k <? 2)%nat; lra.
Defined.

(** ** Runs on the sample inputs *)

Example go_fast_small_square :
  outcome (go_fast 0%nat square_world)
  = Ok (mk_ndarray float64 2
          [[0 + (0 + tanh 0 + tanh 3); 1 + (0 + tanh 0 + tanh 3)];
           [2 + (0 + tanh 0 + tanh 3); 3 + (0 + tanh 0 + tanh 3)]]).
Proof.
  rewrite (outcome_go_fast 0%nat small_square square_world eq_refl). reflexivity.
Qed.

Example random_directions_first_call :
  outcome (random_directions 1 1 session_world)
  = Ok (mk_ndarray float64 3
          [[ 1 * sin (acos (-1 + (1 - -1) * 0)) * cos (0 + (2 * PI - 0) * 0);
             1 * sin (acos (-1 + (1 - -1) * 0)) * sin (0 + (2 * PI - 0) * 0);
             1 * cos (acos (-1 + (1 - -1) * 0)) ]]).
Proof.
  rewrite (outcome_random_directions 1 1 session_world ltac:(lia) session_world_ok).
  reflexivity.
Qed.

Example random_directions_negative_count :
  fst (random_directions (-1) 1 session_world) = Raise ValueError.
Proof. reflexivity. Qed.

(** ** Further properties of [go_fast] and [go_numpy] *)

Lemma entry_in_bounds arr i j :
  wf_array arr -> (i < length (arr_rows arr))%nat -> (j < arr_ncols arr)%nat ->
  is_Some (entry arr i j).
Proof.
  intros Hwf Hi Hj. unfold entry.
  destruct (lookup_lt_is_Some_2 (arr_rows arr) i Hi) as [row Hrow].
  rewrite Hrow. apply lookup_lt_is_Some_2.
  unfold wf_array in Hwf. rewrite Forall_forall in Hwf.
  rewrite (Hwf row); [exact Hj|]. apply list_elem_of_lookup. eauto.
Qed.

Lemma np_setitem_row_other l i row w a :
  a <> l -> heap (snd (np_setitem_row l i row w)) !! a = heap w !! a.
Proof.
  intros Hne. unfold np_setitem_row, bind, load.
  destruct (heap w !! l) as [arr|]; [|reflexivity].
  destruct (decide (i < length (arr_rows arr))%nat); [|reflexivity].
  destruct (decide (length row = arr_ncols arr)); [|reflexivity].
  cbn [snd store heap set_heap]. apply list_lookup_insert_ne. congruence.
Qed.

Lemma add_scalar_wf arr s : wf_array arr -> wf_array (add_scalar arr s).
Proof.
  unfold wf_array, add_scalar. cbn [arr_rows arr_ncols]. intros Hwf.
  apply Forall_forall. intros row Hrow.
  apply list_elem_of_fmap in Hrow. destruct Hrow as [row0 [-> Hrow0]].
  rewrite length_map. rewrite Forall_forall in Hwf. apply Hwf. exact Hrow0.
Qed.

Lemma add_scalar_shape arr s : shape (add_scalar arr s) = shape arr.
Proof. unfold shape, add_scalar. cbn [arr_rows arr_ncols]. now rewrite length_map. Qed.

(** X3: what [go_fast] and [go_numpy] return is a new array, never a
    view of the argument: the reference is one that did not exist before
    the call, the array is well formed, has the shape of the argument and
    dtype float64 whatever the dtype of the argument, and assigning a row
    of the result afterwards leaves the argument as it was. *)
Theorem results_do_not_alias_the_argument w a arr :
  heap w !! a = Some arr ->
  wf_array arr ->
  (length (arr_rows arr) <= arr_ncols arr)%nat ->
  forall f, f = go_fast \/ f = go_numpy ->
  exists l w' out,
    f a w = (Ok l, w') /\
    heap w !! l = None /\ l <> a /\
    heap w' !! l = Some out /\
    wf_array out /\ shape out = shape arr /\ arr_dtype out = float64 /\
    forall i row, heap (snd (np_setitem_row l i row w')) !! a = Some arr.
Proof.
  intros Ha Hwf Hle f Hf.
  assert (Hlt : (a < length (heap w))%nat) by (eapply lookup_lt_Some; exact Ha).
  assert (Hfresh : heap w !! length (heap w) = None) by (apply lookup_ge_None; lia).
  destruct Hf as [-> | ->].
  - eexists _, _, _. split; [apply (go_fast_ok a arr w Ha Hwf Hle)|].
    split; [exact Hfresh|]. split; [lia|].
    split; [cbn [heap set_heap]; apply lookup_fresh|].
    split; [apply add_scalar_wf; exact Hwf|].
    split; [apply add_scalar_shape|]. split; [reflexivity|].
    intros i row. rewrite np_setitem_row_other by lia.
    cbn [heap set_heap]. apply lookup_old. exact Ha.
  - eexists _, _, _. split; [apply (go_numpy_run a arr w Ha)|].
    split; [exact Hfresh|]. split; [lia|].
    split; [cbn [heap set_heap]; apply lookup_fresh|].
    split; [apply add_scalar_wf; exact Hwf|].
    split; [apply add_scalar_shape|]. split; [reflexivity|].
    intros i row. rewrite np_setitem_row_other by lia.
    cbn [heap set_heap]. apply lookup_old. exact Ha.
Qed.

Lemma results_do_not_alias_the_argument_witness :
  exists l w' out,
    go_fast 1%nat later_world = (Ok l, w') /\
    heap later_world !! l = None /\ l <> 1%nat /\
    heap w' !! l = Some out /\
    wf_array out /\ shape out = shape small_square /\ arr_dtype out = float64 /\
    forall i row, heap (snd (np_setitem_row l i row w')) !! 1%nat = Some small_square.
Proof.
  apply (results_do_not_alias_the_argument later_world 1%nat small_square).
  - reflexivity.
  - repeat constructor.
  - simpl. lia.
  - left. reflexivity.
Defined.

Lemma tanh_0 : tanh 0 = 0.
Proof. unfold tanh. rewrite sinh_0. unfold Rdiv. ring. Qed.

Lemma fold_left_zero_diag arr l : forall s,
  Forall (fun i => entry arr i i = Some 0) l ->
  fold_left (fun t i => t + tanh (at_diag arr i)) l s = s.
Proof.
  induction l as [|i l IH]; intros s Hl; [reflexivity|].
  inversion Hl as [|? ? Hi Hl']; subst. cbn [fold_left].
  assert (E : at_diag arr i = 0) by (unfold at_diag; now rewrite Hi).
  rewrite E, tanh_0, Rplus_0_r. apply IH. exact Hl'.
Qed.

(** X5: a float64 matrix whose diagonal is zero comes back with the
    same values, in a new float64 array: [tanh(0) = 0], so the scalar
    added is 0.  This covers the matrix with no row. *)
Theorem go_fast_zero_diagonal w a arr :
  heap w !! a = Some arr ->
  arr_dtype arr = float64 ->
  wf_array arr ->
  (length (arr_rows arr) <= arr_ncols arr)%nat ->
  (forall i, (i < length (arr_rows arr))%nat -> entry arr i i = Some 0) ->
  exists out,
    outcome (go_fast a w) = Ok out /\
    arr_rows out = arr_rows arr /\
    shape out = shape arr /\
    arr_dtype out = float64.
Proof.
  intros Ha _ Hwf Hle Hdiag. eexists. split.
  { rewrite (outcome_go_fast a arr w Ha).
    rewrite (diag_loop_in_bounds arr _ 0 (diag_in_bounds arr Hwf Hle)).
    reflexivity. }
  split; [|split; [apply add_scalar_shape|reflexivity]].
  rewrite fold_left_zero_diag.
  - unfold add_scalar. cbn [arr_rows].
    rewrite <- (map_id (arr_rows arr)) at 2. apply map_ext. intros row.
    rewrite <- (map_id row) at 2. apply map_ext. intros x. apply Rplus_0_r.
  - apply Forall_forall. intros i Hi. apply elem_of_seq in Hi. apply Hdiag. lia.
Qed.

Lemma go_fast_zero_diagonal_witness :
  exists out,
    outcome (go_fast 0%nat hollow_world) = Ok out /\
    arr_rows out = arr_rows hollow /\
    shape out = shape hollow /\
    arr_dtype out = float64.
Proof.
  apply (go_fast_zero_diagonal hollow_world 0%nat hollow).
  - reflexivity.
  - reflexivity.
  - repeat constructor.
  - simpl. lia.
  - intros i Hi. simpl in Hi.
    destruct i as [|[|i]]; [reflexivity|reflexivity|lia].
Defined.

(** ** Further properties of [random_directions] and [spherical_to_cartesian] *)

Lemma Rabs_le_1_mult2 a b : Rabs b <= 1 -> Rabs (a * b) <= Rabs a.
Proof.
  intros Hb. rewrite Rabs_mult. rewrite <- (Rmult_1_r (Rabs a)) at 2.
  apply Rmult_le_compat_l; [apply Rabs_pos|exact Hb].
Qed.

Lemma Rabs_le_1_mult a b c :
  Rabs b <= 1 -> Rabs c <= 1 -> Rabs (a * b * c) <= Rabs a.
Proof.
  intros Hb Hc. eapply Rle_trans; [apply Rabs_le_1_mult2; exact Hc|].
  apply Rabs_le_1_mult2. exact Hb.
Qed.

Lemma Rabs_sin_le_1 x : Rabs (sin x) <= 1.
Proof. apply Rabs_le. pose proof (SIN_bound x). lra. Qed.

Lemma Rabs_cos_le_1 x : Rabs (cos x) <= 1.
Proof. apply Rabs_le. pose proof (COS_bound x). lra. Qed.

(** X6: in exact real arithmetic [cos] undoes [arccos], so the third
    coordinate of row [i] is [r] times the second draw of iteration [i]
    mapped to [-1, 1]: [z = r (2 u - 1)], linear in the draw.  Every
    coordinate of every row lies in [-|r|, |r|]. *)
Theorem random_directions_z_is_linear_in_the_draw n r w :
  (0 <= n)%Z -> rng_ok w ->
  exists out,
    outcome (random_directions n r w) = Ok out /\
    forall i, (i < Z.to_nat n)%nat ->
      exists x y z,
        arr_rows out !! i = Some [x; y; z] /\
        z = r * (2 * rng_stream w (rng_pos w + 2 * i + 1)%nat - 1) /\
        Rabs x <= Rabs r /\ Rabs y <= Rabs r /\ Rabs z <= Rabs r.
Proof.
  intros Hn Hok. eexists.
  split; [apply (outcome_random_directions n r w Hn Hok)|].
  intros i Hi. eexists _, _, _. split.
  { cbn [arr_rows]. change (map ?f ?l) with (f <$> l). rewrite list_lookup_fmap.
    rewrite lookup_seq_lt by exact Hi. reflexivity. }
  assert (Hz : r * cos (theta_at (rng_stream w) (rng_pos w) i)
               = r * (2 * rng_stream w (rng_pos w + 2 * i + 1)%nat - 1)).
  { unfold theta_at. rewrite cos_acos.
    - unfold arccos_arg_at. ring.
    - apply rng_ok_arccos_domain. exact Hok. }
  split; [exact Hz|]. repeat split.
  - apply Rabs_le_1_mult; [apply Rabs_sin_le_1|apply Rabs_cos_le_1].
  - apply Rabs_le_1_mult; [apply Rabs_sin_le_1|apply Rabs_sin_le_1].
  - apply Rabs_le_1_mult2, Rabs_cos_le_1.
Qed.

Lemma random_directions_z_is_linear_in_the_draw_witness :
  exists out,
    outcome (random_directions 2 3 session_world) = Ok out /\
    forall i, (i < Z.to_nat 2)%nat ->
      exists x y z,
        arr_rows out !! i = Some [x; y; z] /\
        z = 3 * (2 * rng_stream session_world (rng_pos session_world + 2 * i + 1)%nat - 1) /\
        Rabs x <= Rabs 3 /\ Rabs y <= Rabs 3 /\ Rabs z <= Rabs 3.
Proof.
  apply (random_directions_z_is_linear_in_the_draw 2%Z 3 session_world).
  - lia.
  - intros k. unfold session_world, session_stream. cbn [rng_stream].
    destruct (k <? 2)%nat; lra.
Defined.

(** X7: the angles one iteration draws.  With a generator that yields
    numbers in [0, 1), [phi = random.uniform(0, 2 pi)] lies in [0, 2 pi) and
    [theta = np.arccos(random.uniform(-1, 1))] in (0, pi]: [sin(theta)] is
    never negative, and [theta = 0] is never drawn. *)
Theorem drawn_angles_are_in_range w phi w1 u w2 theta w3 :
  rng_ok w ->
  random_uniform 0 (2 * PI) w = (Ok phi, w1) ->
  random_uniform (-1) 1 w1 = (Ok u, w2) ->
  np_arccos u w2 = (Ok theta, w3) ->
  0 <= phi < 2 * PI /\ -1 <= u < 1 /\ 0 < theta <= PI /\ 0 <= sin theta /\
  rng_pos w3 = (rng_pos w + 2)%nat.
Proof.
  intros Hok Hphi Hu Htheta. destruct w as [h g p fm c it].
  rewrite random_uniform_run in Hphi. injection Hphi as <- <-.
  rewrite random_uniform_run in Hu. injection Hu as <- <-.
  pose proof (Hok p) as Hp. pose proof (Hok (S p)) as Hq. cbn [rng_stream] in Hp, Hq.
  assert (Hdom : -1 <= -1 + (1 - -1) * g (S p) <= 1) by (split; lra).
  rewrite (np_arccos_ok _ _ Hdom) in Htheta. injection Htheta as <- <-.
  pose proof PI_RGT_0 as Hpi.
  pose proof (acos_bound (-1 + (1 - -1) * g (S p))) as [Hlo Hhi].
  assert (Hlt : PI * g p < PI * 1) by (apply Rmult_lt_compat_l; lra).
  assert (Hge : 0 <= PI * g p) by (apply Rmult_le_pos; lra).
  split; [split; lra|]. split; [split; lra|].
  assert (Hne : acos (-1 + (1 - -1) * g (S p)) <> 0).
  { intros E. pose proof (cos_acos _ Hdom) as Hc. rewrite E, cos_0 in Hc. lra. }
  split; [split; lra|]. split; [apply sin_ge_0; lra|].
  cbn [rng_pos]. lia.
Qed.

Lemma drawn_angles_are_in_range_witness :
  0 <= 0 + (2 * PI - 0) * 0 < 2 * PI /\ -1 <= -1 + (1 - -1) * 0 < 1 /\
  0 < acos (-1 + (1 - -1) * 0) <= PI /\ 0 <= sin (acos (-1 + (1 - -1) * 0)) /\
  rng_pos (mk_world [] session_stream 2 (fun _ => 0) [] 0%nat)
  = (rng_pos session_world + 2)%nat.
Proof.
  apply (drawn_angles_are_in_range session_world
           (0 + (2 * PI - 0) * 0)
           (mk_world [] session_stream 1 (fun _ => 0) [] 0%nat)
           (-1 + (1 - -1) * 0)
           (mk_world [] session_stream 2 (fun _ => 0) [] 0%nat)).
  - intros k. unfold session_world, session_stream. cbn [rng_stream].
    destruct (k <? 2)%nat; lra.
  - reflexivity.
  - reflexivity.
  - apply np_arccos_ok. lra.
Defined.

Lemma direction_shift r g p k i :
  direction r g p (k + i) = direction r g (p + 2 * k) i.
Proof.
  unfold direction, theta_at, phi_at, arccos_arg_at.
  replace (p + 2 * (k + i))%nat with (p + 2 * k + 2 * i)%nat by lia.
  reflexivity.
Qed.

(** X8: calls compose along the generator.  [random_directions(n, r)]
    followed by [random_directions(m, r)] returns, in two arrays, the rows
    that one call [random_directions(n + m, r)] returns from the same
    state: the first [n] rows, then the other [m]. *)
Theorem random_directions_calls_concatenate n m r w :
  (0 <= n)%Z -> (0 <= m)%Z -> rng_ok w ->
  exists a b c,
    outcome (random_directions n r w) = Ok a /\
    outcome (random_directions m r (snd (random_directions n r w))) = Ok b /\
    outcome (random_directions (n + m) r w) = Ok c /\
    arr_rows c = arr_rows a ++ arr_rows b /\
    rng_pos (snd (random_directions m r (snd (random_directions n r w))))
    = rng_pos (snd (random_directions (n + m) r w)).
Proof.
  intros Hn Hm Hok.
  assert (Hok1 : rng_ok (snd (random_directions n r w))).
  { rewrite (random_directions_ok n r w Hn Hok). exact Hok. }
  eexists _, _, _.
  split; [apply (outcome_random_directions n r w Hn Hok)|].
  split; [apply (outcome_random_directions m r _ Hm Hok1)|].
  split; [apply (outcome_random_directions (n + m) r w ltac:(lia) Hok)|].
  split.
  - cbn [arr_rows]. rewrite (random_directions_ok n r w Hn Hok).
    cbn [snd rng_stream rng_pos].
    rewrite Z2Nat.inj_add by lia. rewrite seq_app, map_app. f_equal.
    cbn [Nat.add].
    replace (seq (Z.to_nat n) (Z.to_nat m))
      with (Nat.add (Z.to_nat n) <$> seq 0 (Z.to_nat m))
      by (rewrite fmap_add_seq; f_equal; lia).
    change (map ?f ?l) with (f <$> l). rewrite <- list_fmap_compose.
    apply list_fmap_ext. intros _ i _. apply direction_shift.
  - rewrite (random_directions_ok m r _ Hm Hok1).
    rewrite (random_directions_ok n r w Hn Hok).
    rewrite (random_directions_ok (n + m) r w ltac:(lia) Hok).
    cbn [snd rng_pos]. rewrite Z2Nat.inj_add by lia. lia.
Qed.

Lemma random_directions_calls_concatenate_witness :
  exists a b c,
    outcome (random_directions 1 1 session_world) = Ok a /\
    outcome (random_directions 2 1 (snd (random_directions 1 1 session_world))) = Ok b /\
    outcome (random_directions (1 + 2) 1 session_world) = Ok c /\
    arr_rows c = arr_rows a ++ arr_rows b /\
    rng_pos (snd (random_directions 2 1 (snd (random_directions 1 1 session_world))))
    = rng_pos (snd (random_directions (1 + 2) 1 session_world)).
Proof.
  apply (random_directions_calls_concatenate 1%Z 2%Z 1 session_world).
  - lia.
  - lia.
  - intros k. unfold session_world, session_stream. cbn [rng_stream].
    destruct (k <? 2)%nat; lra.
Defined.

Lemma direction_scales r g p i :
  direction r g p i = map (fun x => r * x) (direction 1 g p i).
Proof.
  unfold direction. cbn [map].
  f_equal; [ring|]. f_equal; [ring|]. f_equal. ring.
Qed.

(** X9: in exact real arithmetic the radius only scales.  From the same
    state of the generator, the rows of [random_directions(n, r)] are [r]
    times the rows of [random_directions(n, 1.0)], entry by entry; with
    [r = 0] every row is the origin. *)
Theorem random_directions_scales_with_radius n r w :
  (0 <= n)%Z -> rng_ok w ->
  exists unit_rows out,
    outcome (random_directions n 1 w) = Ok unit_rows /\
    outcome (random_directions n r w) = Ok out /\
    arr_rows out = map (map (fun x => r * x)) (arr_rows unit_rows) /\
    (r = 0 -> forall i row, arr_rows out !! i = Some row -> row = [0; 0; 0]).
Proof.
  intros Hn Hok. eexists _, _.
  split; [apply (outcome_random_directions n 1 w Hn Hok)|].
  split; [apply (outcome_random_directions n r w Hn Hok)|].
  cbn [arr_rows]. split.
  - rewrite map_map. apply map_ext. intros i. apply direction_scales.
  - intros -> i row Hrow.
    change (map ?f ?l) with (f <$> l) in Hrow. rewrite list_lookup_fmap in Hrow.
    destruct (seq 0 (Z.to_nat n) !! i) as [j|]; [|discriminate].
    cbn in Hrow. injection Hrow as <-.
    unfold direction. f_equal; [ring|]. f_equal; [ring|]. f_equal. ring.
Qed.

Lemma random_directions_scales_with_radius_witness :
  exists unit_rows out,
    outcome (random_directions 2 1 session_world) = Ok unit_rows /\
    outcome (random_directions 2 5 session_world) = Ok out /\
    arr_rows out = map (map (fun x => 5 * x)) (arr_rows unit_rows) /\
    (5 = 0 -> forall i row, arr_rows out !! i = Some row -> row = [0; 0; 0]).
Proof.
  apply (random_directions_scales_with_radius 2%Z 5 session_world).
  - lia.
  - intros k. unfold session_world, session_stream. cbn [rng_stream].
    destruct (k <? 2)%nat; lra.
Defined.

(** X10: a negative count is refused before anything happens:
    [np.empty] raises ValueError, no number is drawn, no array is
    allocated and the loop does not start. *)
Theorem random_directions_negative_count_raises n r w :
  (n < 0)%Z ->
  random_directions n r w
  = (Raise ValueError, set_calls (calls w ++ [f_random_directions]) w) /\
  rng_pos (snd (random_directions n r w)) = rng_pos w /\
  heap (snd (random_directions n r w)) = heap w /\
  iters_during (random_directions n r) w = 0%nat.
Proof.
  intros Hn.
  assert (Hrun : random_directions n r w
                 = (Raise ValueError, set_calls (calls w ++ [f_random_directions]) w)).
  { unfold random_directions.
    rewrite (bind_ok (enter f_random_directions) _ w tt
               (set_calls (calls w ++ [f_random_directions]) w)) by reflexivity.
    erewrite bind_raise; [reflexivity|].
    unfold np_empty. destruct (n <? 0)%Z eqn:E; [reflexivity|lia]. }
  unfold iters_during. rewrite Hrun. cbn [snd rng_pos heap iters set_calls].
  repeat split. lia.
Qed.

Lemma random_directions_negative_count_raises_witness :
  random_directions (-3) 1 later_world
  = (Raise ValueError, set_calls (calls later_world ++ [f_random_directions]) later_world) /\
  rng_pos (snd (random_directions (-3) 1 later_world)) = rng_pos later_world /\
  heap (snd (random_directions (-3) 1 later_world)) = heap later_world /\
  iters_during (random_directions (-3) 1) later_world = 0%nat.
Proof.
  apply (random_directions_negative_count_raises (-3)%Z 1 later_world). lia.
Defined.

(** X11: a call reads the next [2 n] draws and nothing else: two states
    whose generators agree on their next [2 n] numbers give the same array,
    whatever they yield afterwards and whatever the heaps hold. *)
Theorem random_directions_reads_2n_draws n r w1 w2 :
  (0 <= n)%Z -> rng_ok w1 -> rng_ok w2 ->
  (forall k, (k < 2 * Z.to_nat n)%nat ->
     rng_stream w1 (rng_pos w1 + k) = rng_stream w2 (rng_pos w2 + k)) ->
  outcome (random_directions n r w1) = outcome (random_directions n r w2).
Proof.
  intros Hn Hok1 Hok2 Hsame.
  rewrite (outcome_random_directions n r w1 Hn Hok1).
  rewrite (outcome_random_directions n r w2 Hn Hok2).
  do 2 f_equal. apply map_ext_in. intros i Hi. apply in_seq in Hi.
  unfold direction, theta_at, phi_at, arccos_arg_at.
  rewrite <- !Nat.add_assoc.
  rewrite (Hsame (2 * i)%nat) by lia. rewrite (Hsame (2 * i + 1)%nat) by lia.
  reflexivity.
Qed.

Lemma random_directions_reads_2n_draws_witness :
  outcome (random_directions 1 1 session_world)
  = outcome (random_directions 1 1 square_world).
Proof.
  apply (random_directions_reads_2n_draws 1%Z 1 session_world square_world).
  - lia.
  - intros k. unfold session_world, session_stream. cbn [rng_stream].
    destruct (k <? 2)%nat; lra.
  - intros k. cbn. lra.
  - intros k Hk. unfold session_world, square_world, session_stream.
    cbn [rng_stream rng_pos Nat.add].
    destruct k as [|[|k]]; [reflexivity|reflexivity|simpl in Hk; lia].
Defined.

Lemma triple_eq (a b c a' b' c' : R) :
  a = a' -> b = b' -> c = c' -> @Ok (R * R * R) (a, b, c) = Ok (a', b', c').
Proof. intros -> -> ->. reflexivity. Qed.

(** X12: the symmetries of the conversion, in exact real arithmetic.
    It has period [2 pi] in each angle; a negative radius is the antipode,
    [(-r, theta, phi)] and [(r, pi - theta, phi + pi)] being the same
    point; and a negative polar angle is a half turn in azimuth. *)
Theorem spherical_to_cartesian_symmetries r theta phi w :
  fst (spherical_to_cartesian r theta (phi + 2 * PI) w)
  = fst (spherical_to_cartesian r theta phi w) /\
  fst (spherical_to_cartesian r (theta + 2 * PI) phi w)
  = fst (spherical_to_cartesian r theta phi w) /\
  fst (spherical_to_cartesian (- r) theta phi w)
  = fst (spherical_to_cartesian r (PI - theta) (phi + PI) w) /\
  fst (spherical_to_cartesian r (- theta) phi w)
  = fst (spherical_to_cartesian r theta (phi + PI) w).
Proof.
  destruct w as [h g p fm c it]. rewrite !spherical_to_cartesian_run. cbn [fst].
  assert (Hc : forall x, cos (x + 2 * PI) = cos x).
  { intros x. replace (x + 2 * PI) with (x + PI + PI) by ring.
    rewrite !neg_cos. ring. }
  assert (Hs : forall x, sin (x + 2 * PI) = sin x).
  { intros x. replace (x + 2 * PI) with (x + PI + PI) by ring.
    rewrite !neg_sin. ring. }
  repeat split.
  - rewrite Hc, Hs. reflexivity.
  - rewrite Hc, Hs. reflexivity.
  - rewrite sin_PI_x, Rtrigo_facts.cos_pi_minus, neg_cos, neg_sin.
    apply triple_eq; ring.
  - rewrite sin_neg, cos_neg, neg_cos, neg_sin.
    apply triple_eq; ring.
Qed.

(** ** [go_numpy] on any shape *)

Lemma np_diagonal_wf arr :
  wf_array arr ->
  np_diagonal arr
  = map (at_diag arr) (seq 0 (Nat.min (length (arr_rows arr)) (arr_ncols arr))).
Proof.
  intros Hwf. unfold np_diagonal. apply omap_all_some.
  apply Forall_forall. intros i Hi. apply elem_of_seq in Hi.
  apply entry_in_bounds; [exact Hwf|lia|lia].
Qed.

(** X15: [go_numpy] accepts a matrix of any shape.  It returns a new
    array in which every entry of [a] is increased by the sum of
    [tanh(a[i, i])] over [i < min(a.shape)]; rows or columns beyond the
    square part do not contribute, and an array with no row or no column
    comes back with the values it had. *)
Theorem go_numpy_on_any_shape w a arr :
  heap w !! a = Some arr ->
  wf_array arr ->
  exists out,
    outcome (go_numpy a w) = Ok out /\
    shape out = shape arr /\
    length (np_diagonal arr) = Nat.min (length (arr_rows arr)) (arr_ncols arr) /\
    (forall i j x, entry arr i j = Some x ->
       entry out i j
       = Some (x + np_sum (map (fun i => tanh (at_diag arr i))
                               (seq 0 (Nat.min (length (arr_rows arr))
                                               (arr_ncols arr)))))) /\
    (Nat.min (length (arr_rows arr)) (arr_ncols arr) = 0%nat ->
     arr_rows out = arr_rows arr).
Proof.
  intros Ha Hwf. pose proof (np_diagonal_wf arr Hwf) as Hd. eexists. split.
  { rewrite (go_numpy_run a arr w Ha). unfold outcome. cbn [heap set_heap].
    rewrite lookup_fresh. reflexivity. }
  split; [apply add_scalar_shape|].
  split; [rewrite Hd, length_map, length_seq; reflexivity|]. split.
  - intros i j x Hx. rewrite entry_add_scalar, Hx, Hd, map_map. reflexivity.
  - intros Hmin. rewrite Hd, Hmin. cbn [seq map np_sum fold_right].
    unfold add_scalar. cbn [arr_rows].
    rewrite <- (map_id (arr_rows arr)) at 2. apply map_ext. intros row.
    rewrite <- (map_id row) at 2. apply map_ext. intros x. apply Rplus_0_r.
Qed.

Lemma go_numpy_on_any_shape_witness :
  exists out,
    outcome (go_numpy 0%nat tall_world) = Ok out /\
    shape out = shape tall /\
    length (np_diagonal tall) = Nat.min (length (arr_rows tall)) (arr_ncols tall) /\
    (forall i j x, entry tall i j = Some x ->
       entry out i j
       = Some (x + np_sum (map (fun i => tanh (at_diag tall i))
                               (seq 0 (Nat.min (length (arr_rows tall))
                                               (arr_ncols tall)))))) /\
    (Nat.min (length (arr_rows tall)) (arr_ncols tall) = 0%nat ->
     arr_rows out = arr_rows tall).
Proof.
  apply (go_numpy_on_any_shape tall_world 0%nat tall).
  - reflexivity.
  - repeat constructor.
Defined.

(** ** The pole and the origin *)

